(** * The ClickHouse processing loop of [core/clickhouse-processor]

    A shallow embedding of [runClickhouseProcessing] and of its helpers
    [inspectDatabase], [clearPartialData] and [Metrics], together with the
    properties the specification states about them.

    Conventions.
    - JavaScript numbers that hold block numbers and row counts are
      integers well inside the safe range; they are modelled as [Z].
    - A thrown JavaScript value is a [Throw] result; [await] is sequencing.
    - Calls to collaborators (store client, writer, mapping function,
      metrics, error log) are recorded, in program order, in a trace;
      [log.debug] lines are not recorded. *)

From stdpp Require Import base option list strings pretty gmap fin_maps.
From Stdlib Require Import ZArith Lia.

Local Open Scope string_scope.
Local Open Scope list_scope.
Local Open Scope Z_scope.

(** ** Results of fallible calls *)

Inductive result (E A : Type) : Type :=
| Ok (a : A)
| Throw (e : E).
Arguments Ok {E A} a.
Arguments Throw {E A} e.

Definition is_ok {E A} (r : result E A) : bool :=
  match r with Ok _ => true | Throw _ => false end.

(** ** Schema inspection: [inspectDatabase] *)

Module Inspect.

(** One row of [SELECT table, name, type FROM system.columns]. *)
Record ColumnRow : Type := mkColumn {
  col_table : string;
  col_name : string;
  col_type : string
}.

(** Modelled from the spec: [groupBy] of [util/misc] is not among the
    sources; the specification only says "group by table".  It is modelled
    as the insertion-ordered [Map] the caller iterates with [entries()],
    queries with [has] and lists with [keys()]: one entry per distinct key,
    in order of first occurrence, each group keeping its rows in order. *)
Fixpoint group_insert (k : string) (r : ColumnRow)
    (m : list (string * list ColumnRow)) : list (string * list ColumnRow) :=
  match m with
  | [] => [(k, [r])]
  | (k', g) :: m' =>
      if String.eqb k' k then (k', g ++ [r]) :: m'
      else (k', g) :: group_insert k r m'
  end.

(** Modelled from the spec: [groupBy] of [util/misc], absent from the
    sources, as the fold of [group_insert] over the rows. *)
Definition groupBy (rows : list ColumnRow) (key : ColumnRow → string)
    : list (string * list ColumnRow) :=
  fold_left (λ m r, group_insert (key r) r m) rows [].

(** [Map.prototype.has] and [Map.prototype.keys] on the grouped listing. *)
Definition has (m : list (string * list ColumnRow)) (k : string) : bool :=
  existsb (λ e, String.eqb (fst e) k) m.

Definition keys (m : list (string * list ColumnRow)) : list string :=
  map fst m.

(** The local interface [TypeDef] and its three instances. *)
Record TypeDef : Type := mkTypeDef {
  type_match : string → bool;
  description : string
}.

Definition BlockNumber : TypeDef := {|
  description := "only UInt32 and UInt64 types are allowed";
  type_match := λ type, existsb (String.eqb type) ["UInt32"; "UInt64"]
|}.

Definition Hash : TypeDef := {|
  description := "only String or FixedString(N) types are allowed";
  type_match := λ type,
    String.eqb type "String" || String.prefix "FixedString" type
|}.

Definition DataTime : TypeDef := {|
  description := "only DateTime type is allowed";
  type_match := λ type, String.eqb type "DateTime"
|}.

(** [assertColumn], with the enclosing [db], [table] and [fields] made
    explicit.  [fields.find] returns the first field of that name. *)
Definition assertColumn (db table : string) (fields : list ColumnRow)
    (name : string) (type : TypeDef) (optional : bool) : result string unit :=
  match find (λ f, String.eqb (col_name f) name) fields with
  | None =>
      if optional then Ok tt
      else Throw ("table '" +:+ db +:+ "." +:+ table
                  +:+ "' does not have column '" +:+ name +:+ "'")
  | Some def =>
      if type_match type (col_type def) then Ok tt
      else Throw ("column '" +:+ name +:+ "' of table '" +:+ db +:+ "."
                  +:+ table +:+ "' has unsupported type " +:+ col_type def
                  +:+ ", " +:+ description type)
  end.

(** Sequencing of assertions: the first failure is thrown. *)
Definition andThen (r : result string unit) (k : result string unit)
    : result string unit :=
  match r with Ok _ => k | Throw e => Throw e end.

Infix ";;;" := andThen (at level 60, right associativity).

(** The body of the loop over [columns.entries()]. *)
Definition checkTable (db table : string) (fields : list ColumnRow)
    : result string unit :=
  if String.eqb table "blocks" then
    assertColumn db table fields "number" BlockNumber false ;;;
    assertColumn db table fields "hash" Hash false ;;;
    assertColumn db table fields "parent_number" BlockNumber true ;;;
    assertColumn db table fields "parent_hash" Hash false ;;;
    assertColumn db table fields "timestamp" DataTime true
  else
    assertColumn db table fields "block_number" BlockNumber false ;;;
    assertColumn db table fields "block_hash" Hash false ;;;
    assertColumn db table fields "block_timestamp" DataTime true.

Fixpoint checkTables (db : string) (entries : list (string * list ColumnRow))
    : result string unit :=
  match entries with
  | [] => Ok tt
  | (table, fields) :: rest =>
      checkTable db table fields ;;; checkTables db rest
  end.

(** [inspectDatabase], applied to the rows the [system.columns] query
    returned for [db]. *)
Definition inspectDatabase (db : string) (rows : list ColumnRow)
    : result string (list string) :=
  let columns := groupBy rows col_table in
  match checkTables db columns with
  | Throw e => Throw e
  | Ok _ =>
      if negb (has columns "blocks") then
        Throw ("'blocks' table is not defined in database '" +:+ db +:+ "'")
      else
        Ok (filter (λ table, table ≠ "blocks") (keys columns))
  end.

(** The type of the column called [name], as [fields.find] sees it. *)
Definition columnType (fields : list ColumnRow) (name : string)
    : option string :=
  col_type <$> find (λ f, String.eqb (col_name f) name) fields.

End Inspect.

(** ** Blocks, batches and data streams *)

(** [BlockRef] of [common]. *)
Record BlockRef : Type := mkBlockRef {
  ref_number : Z;
  ref_hash : string
}.

(** The [header] of a [BlockBase]. *)
Record BlockHeader : Type := mkHeader {
  number : Z;
  hash : string;
  parent_hash : string;
  parent_number : option Z;
  timestamp : option Z
}.

(** [B extends BlockBase]: every block type exposes a header. *)
Class BlockBase (B : Type) : Type := header : B → BlockHeader.

(** [DataBatch<B>]. *)
Record DataBatch (B : Type) : Type := mkBatch {
  blocks : list B;
  headNumber : option Z
}.
Arguments mkBatch {B} blocks headNumber.
Arguments blocks {B} _.
Arguments headNumber {B} _.

(** What iterating the [AsyncIterable] of [createDataStream] can do: end,
    throw, or yield a batch and go on.  A run is observed over finitely
    many batches; a stream that never ends is covered prefix by
    prefix. *)
Inductive DataStream (B Err : Type) : Type :=
| StreamEnd
| StreamThrow (e : Err)
| StreamYield (batch : DataBatch B) (rest : DataStream B Err).
Arguments StreamEnd {B Err}.
Arguments StreamThrow {B Err} e.
Arguments StreamYield {B Err} batch rest.

(** ** The processing loop: [runClickhouseProcessing] *)

Module Loop.

Section Processing.

(** Block type, row type, thrown values, and the state of the outside
    world (the ClickHouse server and the [BlockWriter] object). *)
Context {B Row Err World : Type} `{BlockBase B}.

(** [R extends {[P in keyof R]: object[]}]: rows per table name. *)
Abbreviation R := (gmap string (list Row)).

(** The collaborators whose code is not part of the processor:
    [clickhouse.command]; the two uses of [clickhouse.query], each
    returning [res.data]; the writer's methods; the mapping function. *)
Variable command : string → World → result Err unit * World.
Variable queryColumns :
  string → World → result Err (list Inspect.ColumnRow) * World.
Variable queryHead : string → World → result Err (list BlockRef) * World.
Variable drain : World → result Err unit * World.
Variable push : BlockHeader → R → World → result Err unit * World.
Variable flush : World → result Err unit * World.
Variable isHealthy : World → bool.
Variable map : B → result Err R.

(** [new Error(message)]. *)
Variable newError : string → Err.

(** [TableOptions] of [clickhouse/writer], with the empty object, and
    the effect of [new BlockWriter(clickhouse, database, tableMap)]. *)
Context {Options : Type}.
Variable noOptions : Options.
Variable newBlockWriter : string → list (string * Options) → World → World.

(** Calls made by the processor, with their outcome. *)
Inductive event : Type :=
| EvQueryColumns (db : string) (r : result Err (list Inspect.ColumnRow))
| EvQueryHead (sql : string) (r : result Err (list BlockRef))
| EvCommand (sql : string) (r : result Err unit)
| EvMap (block : B) (r : result Err R)
| EvDrain (r : result Err unit)
| EvPush (h : BlockHeader) (tables : R) (r : result Err unit)
| EvFlush (r : result Err unit)
| EvLogError (err : Err) (msg : string)
| EvRegisterBatch (batch : DataBatch B) (rows : nat)
| EvReport.

(** A computation returns or throws, changes the world and leaves a
    trace of the calls it made. *)
Record outcome (A : Type) : Type := mkOutcome {
  res : result Err A;
  world : World;
  trace : list event
}.
Arguments mkOutcome {A} res world trace.
Arguments res {A} _.
Arguments world {A} _.
Arguments trace {A} _.

Definition M (A : Type) : Type := World → outcome A.

Definition ret {A} (a : A) : M A := λ w, mkOutcome (Ok a) w [].

Definition throw {A} (e : Err) : M A := λ w, mkOutcome (Throw e) w [].

Definition bind {A C} (m : M A) (k : A → M C) : M C := λ w,
  let o := m w in
  match res o with
  | Ok a =>
      let o' := k a (world o) in
      mkOutcome (res o') (world o') (trace o ++ trace o')
  | Throw e => mkOutcome (Throw e) (world o) (trace o)
  end.

(** [try { m } catch (err) { handler err }]. *)
Definition tryCatch {A} (m : M A) (handler : Err → M A) : M A := λ w,
  let o := m w in
  match res o with
  | Ok a => o
  | Throw e =>
      let o' := handler e (world o) in
      mkOutcome (res o') (world o') (trace o ++ trace o')
  end.

(** A call to a collaborator, logged with its outcome. *)
Definition call {A} (op : World → result Err A * World)
    (ev : result Err A → event) : M A := λ w,
  let '(r, w') := op w in mkOutcome r w' [ev r].

Definition emit (ev : event) : M unit := λ w, mkOutcome (Ok tt) w [ev].

Notation "'let!' x ':=' m 'in' k" := (bind m (λ x, k))
  (at level 10, x name, m at level 100, k at level 200).
Notation "m '>>' k" := (bind m (λ _, k))
  (at level 100, k at level 200, right associativity).

(** [for (let table in tables) nRows += tables[table].length]. *)
Definition countRows (tables : R) (nRows : nat) : nat :=
  map_fold (λ _ rows n, (n + length rows)%nat) nRows tables.

(** The inner loop over [batch.blocks], threading [nRows]. *)
Fixpoint forBlocks (bs : list B) (nRows : nat) : M nat :=
  match bs with
  | [] => ret nRows
  | block :: rest =>
      let! tables := call (λ w, (map block, w)) (EvMap block) in
      call drain EvDrain >>
      call (push (header block) tables) (EvPush (header block) tables) >>
      forBlocks rest (countRows tables (nRows + 1)%nat)
  end.

(** The head-signal condition
    [batch.blocks.length == 0 ||
     (batch.headNumber ?? -1) <= last(batch.blocks).header.number].
    [last] is only evaluated on a non-empty array. *)
Definition headSignal (batch : DataBatch B) : bool :=
  (length (blocks batch) =? 0)%nat
  || match last (blocks batch) with
     | Some b => default (-1) (headNumber batch) <=? number (header b)
     | None => false
     end.

(** The body of [for await (let batch of ...)]. *)
Definition processBatch (batch : DataBatch B) : M unit :=
  let! nRows := forBlocks (blocks batch) 0%nat in
  (if headSignal batch then call flush EvFlush else ret tt) >>
  emit (EvRegisterBatch batch nRows).

Fixpoint forStream (s : DataStream B Err) : M unit :=
  match s with
  | StreamEnd => ret tt
  | StreamThrow e => throw e
  | StreamYield batch rest => processBatch batch >> forStream rest
  end.

(** [await writer.flush().catch(err => log.error(err, ...))]. *)
Definition flushBestEffort : M unit := λ w,
  let '(r, w') := flush w in
  mkOutcome (Ok tt) w'
    (EvFlush r ::
     match r with
     | Ok _ => []
     | Throw err =>
         [EvLogError err "final flush of already mapped data failed"]
     end).

(** The [catch] block of the processing loop. *)
Definition onError (err : Err) : M unit :=
  (λ w, (if isHealthy w then flushBestEffort else ret tt) w) >>
  throw err.

(** From [try] to [metrics.report()]. *)
Definition processingLoop (s : DataStream B Err) : M unit :=
  tryCatch (forStream s) onError >>
  call flush EvFlush >>
  emit EvReport.

(** [clearPartialData]. *)
Definition deleteAbove (database table : string) (n : Z) : string :=
  "DELETE FROM " +:+ database +:+ "." +:+ table
  +:+ " WHERE block_number > " +:+ pretty n.

Definition deleteAll (database table : string) : string :=
  "DELETE FROM " +:+ database +:+ "." +:+ table
  +:+ " WHERE block_number >= 0".

Fixpoint forTables (stmt : string → string) (tableList : list string)
    : M unit :=
  match tableList with
  | [] => ret tt
  | table :: rest =>
      call (command (stmt table)) (EvCommand (stmt table)) >>
      forTables stmt rest
  end.

Definition clearPartialData (database : string) (tableList : list string)
    (head : option BlockRef) : M unit :=
  match head with
  | Some head =>
      forTables (λ table, deleteAbove database table (ref_number head))
                tableList
  | None => forTables (deleteAll database) tableList
  end.

(** [inspectDatabase] on the store: the query, then the checks. *)
Definition inspectDatabase (db : string) : M (list string) :=
  let! rows := call (queryColumns db) (EvQueryColumns db) in
  match Inspect.inspectDatabase db rows with
  | Ok tableList => ret tableList
  | Throw message => throw (newError message)
  end.

(** The body that [runClickhouseProcessing] gives to [runProgram], for
    the arguments [clickhouseDatabase], [clickhouseTables] and [source]
    (its [createDataStream]); [map] is the section's. *)
Definition runClickhouseProcessing (clickhouseDatabase : string)
    (clickhouseTables : option (gmap string Options))
    (createDataStream : option BlockRef → DataStream B Err) : M unit :=
  let! tableList := inspectDatabase clickhouseDatabase in
  let sql := "SELECT number, hash FROM " +:+ clickhouseDatabase
             +:+ ".blocks ORDER BY number DESC LIMIT 1" in
  let! data := call (queryHead sql) (EvQueryHead sql) in
  let head := last data in
  clearPartialData clickhouseDatabase tableList head >>
  let tableMap :=
    (λ table, (table, default noOptions (clickhouseTables ≫= (.!! table))))
      <$> tableList in
  (λ w, mkOutcome (Ok tt)
          (newBlockWriter clickhouseDatabase tableMap w) []) >>
  processingLoop (createDataStream head).

(** The statements a trace gave to [clickhouse.command], in order. *)
Definition commands (tr : list event) : list string :=
  omap (λ ev, match ev with EvCommand sql _ => Some sql | _ => None end) tr.

(** The arguments of the calls of [writer.push] in a trace, in order. *)
Definition pushes (tr : list event) : list (BlockHeader * R) :=
  omap (λ ev, match ev with EvPush h t _ => Some (h, t) | _ => None end) tr.

(** The trace of one block that is mapped, drained for and pushed. *)
Definition blockSteps (block : B) (tables : R) : list event :=
  [ EvMap block (Ok tables); EvDrain (Ok tt);
    EvPush (header block) tables (Ok tt) ].

(** The blocks a stream yields, batch after batch. *)
Fixpoint streamBlocks (s : DataStream B Err) : list B :=
  match s with
  | StreamYield batch rest => blocks batch ++ streamBlocks rest
  | _ => []
  end.

(** In a trace, every call of [push] comes right after a completed
    [drain], itself right after the [map] of a block of [bs] whose header
    and output are the ones pushed. *)
Definition pushesFollowDrain (bs : list B) (tr : list event) : Prop :=
  ∀ pre post h t r,
    tr = pre ++ EvPush h t r :: post →
    ∃ pre' b,
      pre = pre' ++ [EvMap b (Ok t); EvDrain (Ok tt)]
      ∧ h = header b ∧ map b = Ok t ∧ b ∈ bs.

(** The calls of [push] in a trace are those of the first [k] blocks of
    [bs], in order, one per block, each with the block's mapping output;
    all blocks are covered when [complete]. *)
Definition pushesInOrder (bs : list B) (complete : bool)
    (tr : list event) : Prop :=
  ∃ (k : nat) (outs : list R),
    (k ≤ length bs)%nat
    ∧ Forall2 (λ b t, map b = Ok t) (take k bs) outs
    ∧ pushes tr = zip (header <$> take k bs) outs
    ∧ (complete = true → k = length bs).

(** The specification's reading of the head signal for an empty batch:
    a flush is awaited only if [headNumber] is unset or at most
    [lastNumber], the number of the last block processed before. *)
Definition flushOnlyBehind (lastNumber : Z) (batch : DataBatch B)
    (tr : list event) : Prop :=
  (∃ r, EvFlush r ∈ tr) →
  headNumber batch = None
  ∨ ∃ h, headNumber batch = Some h ∧ h ≤ lastNumber.

(** The number of rows in all tables of a mapping output. *)
Definition rowCount (tables : R) : nat :=
  sum_list_with (λ entry, length (snd entry)) (map_to_list tables).

End Processing.

Arguments mkOutcome {B Row Err World A} res world trace.
Arguments res {B Row Err World A} _.
Arguments world {B Row Err World A} _.
Arguments trace {B Row Err World A} _.

End Loop.

(** ** Metrics *)

Module Metrics.

Section Metrics.

Context {B Speed Timer : Type} `{BlockBase B}.

(** [Speed] of [@subsquid/util-internal-counters] and [Timer] of
    [util/timer] are used through these operations only;
    [showSpeed] stands for [Math.round(speed.speed())] as printed. *)
Variable speedPush : Z → Z → Z → Speed → Speed.
Variable showSpeed : Speed → string.
Variable timerStart : Z → Timer → Timer.
Variable timerStop : Timer → Timer.

(** The fields of a [Metrics] object.  [lastReportTime] is [None] while
    it still holds [Number.NEGATIVE_INFINITY]. *)
Record Metrics : Type := mkMetrics {
  lastBlock : Z;
  lastTick : Z;
  lastReportTime : option Z;
  blockSpeed : Speed;
  insertSpeed : Speed;
  reportTimeout : Timer
}.

Definition getStatusLine (m : Metrics) : string :=
  "last block: " +:+ pretty (lastBlock m) +:+ ", "
  +:+ "rate: " +:+ showSpeed (blockSpeed m) +:+ " blocks/sec, "
  +:+ showSpeed (insertSpeed m) +:+ " rows/sec".

(** [report], reading [dateNow] from [Date.now()]; returns the new
    state and the lines given to [log.info]. *)
Definition report (dateNow : Z) (m : Metrics) : Metrics * list string :=
  ({| lastBlock := lastBlock m;
      lastTick := lastTick m;
      lastReportTime := Some dateNow;
      blockSpeed := blockSpeed m;
      insertSpeed := insertSpeed m;
      reportTimeout := timerStop (reportTimeout m) |},
   [getStatusLine m]).

(** [reportUpdates]: [now] is its own reading of [Date.now()],
    [dateNow] the one [report] takes if it is called.  While
    [lastReportTime] is minus infinity the delay is minus infinity too,
    hence not positive. *)
Definition reportUpdates (now dateNow : Z) (m : Metrics)
    : Metrics * list string :=
  match lastReportTime m with
  | None => report dateNow m
  | Some t =>
      let delay := 5000 - (now - t) in
      if 0 <? delay then
        ({| lastBlock := lastBlock m;
            lastTick := lastTick m;
            lastReportTime := lastReportTime m;
            blockSpeed := blockSpeed m;
            insertSpeed := insertSpeed m;
            reportTimeout := timerStart delay (reportTimeout m) |}, [])
      else report dateNow m
  end.

(** [registerBatch]; [tick] is the reading of
    [process.hrtime.bigint()]. *)
Definition registerBatch (tick now dateNow : Z)
    (batch : DataBatch B) (rows : nat) (m : Metrics)
    : Metrics * list string :=
  match blocks batch with
  | [] => (m, [])
  | first :: _ =>
      let lastBlock' :=
        number (header (default first (last (blocks batch)))) in
      let thisLastBlock :=
        if lastBlock m <? 0 then number (header first) - 1
        else lastBlock m in
      reportUpdates now dateNow
        {| lastBlock := lastBlock';
           lastTick := tick;
           lastReportTime := lastReportTime m;
           blockSpeed :=
             speedPush (Z.max 0 (lastBlock' - thisLastBlock))
                       (lastTick m) tick (blockSpeed m);
           insertSpeed :=
             speedPush (Z.of_nat rows) (lastTick m) tick (insertSpeed m);
           reportTimeout := reportTimeout m |}
  end.

End Metrics.

End Metrics.

(** ** The block writer's commit barrier *)

Module BlockWriter.

Section Writer.

Context {Row : Type}.

(** Modelled from the spec: the [BlockWriter] class of
    [clickhouse/writer] is not among the sources.  Following section 4.4
    of the specification, an item-table buffer holds its pending rows,
    each tagged with its block number, and the table's "durable up to
    block" watermark. *)
Record TableBuffer : Type := mkBuffer {
  pending : list (Z * Row);
  durable : Z
}.

(** Modelled from the spec: the writer state of [clickhouse/writer],
    which is not among the sources: one buffer per item table, the
    buffered rows of the [blocks] table, and the rows of [blocks]
    already inserted into the store. *)
Record Writer : Type := mkWriter {
  items : gmap string TableBuffer;
  blocksBuffer : list BlockHeader;
  blocksStored : list BlockHeader
}.

(** Modelled from the spec: [min(durable_block_per_item_table)] of the
    absent [clickhouse/writer]; [None] when there is no item table,
    in which case nothing bounds the publication. *)
Definition minDurable (w : Writer) : option Z :=
  map_fold (λ _ buf acc,
              match acc with
              | None => Some (durable buf)
              | Some m => Some (Z.min (durable buf) m)
              end) None (items w).

(** Modelled from the spec: the check made before each [blocks] flush
    in the absent [clickhouse/writer]: "include only those buffered
    blocks rows whose number is <= min(durable_block_per_item_table)". *)
Definition publishable (w : Writer) (row : BlockHeader) : bool :=
  match minDurable w with
  | None => true
  | Some m => number row <=? m
  end.

(** Modelled from the spec: a flush of the [blocks] buffer in the absent
    [clickhouse/writer]: the publishable rows are inserted, in order,
    the others stay buffered. *)
Definition flushBlocks (w : Writer) : list BlockHeader * Writer :=
  let shipped := List.filter (publishable w) (blocksBuffer w) in
  (shipped,
   {| items := items w;
      blocksBuffer :=
        List.filter (λ row, negb (publishable w row)) (blocksBuffer w);
      blocksStored := blocksStored w ++ shipped |}).

End Writer.

End BlockWriter.

(** ** The schema contract in the specification's words *)

Module Contract.

Import Inspect.

(** [FixedString(N)] for a length [N]. *)
Definition isFixedStringN (type : string) : Prop :=
  ∃ n : N, type = "FixedString(" +:+ pretty n +:+ ")".

Definition specBlockNumber (type : string) : Prop :=
  type = "UInt32" ∨ type = "UInt64".

Definition specHash (type : string) : Prop :=
  type = "String" ∨ isFixedStringN type.

Definition specDateTime (type : string) : Prop :=
  type = "DateTime".

(** What the inspector accepts as a hash type: [String], or any type name
    that starts with [FixedString]. *)
Definition prefixHash (type : string) : Prop :=
  type = "String" ∨ String.prefix "FixedString" type = true.

(** A required column: present, with a type satisfying [P]. *)
Definition required (fields : list ColumnRow) (name : string)
    (P : string → Prop) : Prop :=
  ∃ type, columnType fields name = Some type ∧ P type.

(** An optional column: if present, its type satisfies [P]. *)
Definition optional (fields : list ColumnRow) (name : string)
    (P : string → Prop) : Prop :=
  ∀ type, columnType fields name = Some type → P type.

(** The contract of the [blocks] table, for a given hash predicate. *)
Definition blocksSchema (hashType : string → Prop)
    (fields : list ColumnRow) : Prop :=
  required fields "number" specBlockNumber
  ∧ required fields "hash" hashType
  ∧ required fields "parent_hash" hashType
  ∧ optional fields "parent_number" specBlockNumber
  ∧ optional fields "timestamp" specDateTime.

(** The error of the missing [blocks] table. *)
Definition blocksNotDefined (db : string) : string :=
  "'blocks' table is not defined in database '" +:+ db +:+ "'".

End Contract.

(** ** Concrete databases, blocks and collaborators used in examples *)

Module Demo.

Import Inspect.

(** A [blocks] table whose [hash] column has a type that merely starts
    with [FixedString]. *)
Definition looseBlocks : list ColumnRow :=
  [ mkColumn "blocks" "number" "UInt64";
    mkColumn "blocks" "hash" "FixedString";
    mkColumn "blocks" "parent_hash" "String" ].

(** The [blocks] table of [evm/db_tvl.sql]. *)
Definition tvlBlocks : list ColumnRow :=
  [ mkColumn "blocks" "number" "UInt64";
    mkColumn "blocks" "hash" "FixedString(66)";
    mkColumn "blocks" "parent_hash" "FixedString(66)";
    mkColumn "blocks" "timestamp" "DateTime" ].

(** A database with a valid [blocks] table and an item table [x] that
    has a [block_number] column and no [block_hash] column. *)
Definition noBlockHash : list ColumnRow :=
  tvlBlocks ++ [ mkColumn "x" "block_number" "UInt64";
                 mkColumn "x" "amount" "Int128" ].

(** A database without [blocks] whose only table has a signed
    [block_number]. *)
Definition signedItemOnly : list ColumnRow :=
  [ mkColumn "x" "block_number" "Int64";
    mkColumn "x" "block_hash" "String" ].

(** A database without [blocks] whose only table is a valid item table. *)
Definition validItemOnly : list ColumnRow :=
  [ mkColumn "x" "block_number" "UInt64";
    mkColumn "x" "block_hash" "String" ].

(** The database of [evm/db_tvl.sql], without its view. *)
Definition tvlDatabase : list ColumnRow :=
  tvlBlocks ++
  [ mkColumn "liquidity" "block_number" "UInt64";
    mkColumn "liquidity" "block_hash" "FixedString(66)";
    mkColumn "liquidity" "block_timestamp" "DateTime";
    mkColumn "liquidity" "pool" "FixedString(42)";
    mkColumn "liquidity" "amount" "Int128";
    mkColumn "price" "block_number" "UInt64";
    mkColumn "price" "block_hash" "FixedString(66)";
    mkColumn "price" "block_timestamp" "DateTime";
    mkColumn "price" "pool" "FixedString(42)";
    mkColumn "price" "price" "FixedString(42)" ].

(** Blocks that are their own header. *)
#[global] Instance headerBlock : BlockBase BlockHeader := λ h, h.

Definition block5 : BlockHeader := mkHeader 5 "0x05" "0x04" None None.

(** A world made of two flags: whether the writer reports itself
    healthy, and whether the store accepts inserts. *)
Definition World : Type := bool * bool.

Definition drain (w : World) : result string unit * World := (Ok tt, w).

Definition push (h : BlockHeader) (tables : gmap string (list string))
    (w : World) : result string unit * World := (Ok tt, w).

Definition flush (w : World) : result string unit * World :=
  if snd w then (Ok tt, w) else (Throw "insert rejected", w).

Definition isHealthy (w : World) : bool := fst w.

Definition command (sql : string) (w : World)
    : result string unit * World := (Ok tt, w).

(** A mapping function that emits no rows. *)
Definition mapNothing (b : BlockHeader)
    : result string (gmap string (list string)) := Ok ∅.

(** A batch that ends at block 5 while the chain head is at 1000,
    followed by an empty batch with the same head. *)
Definition behindHead : DataBatch BlockHeader := mkBatch [block5] (Some 1000).

Definition emptyBehindHead : DataBatch BlockHeader := mkBatch [] (Some 1000).

Definition twoBatches : DataStream BlockHeader string :=
  StreamYield behindHead (StreamYield emptyBehindHead StreamEnd).

(** A stream whose source fails at once. *)
Definition failingStream : DataStream BlockHeader string :=
  StreamThrow "portal unreachable".

(** A head to resume from. *)
Definition head100 : BlockRef := mkBlockRef 100 "0x64".

(** Rolling speeds that keep what was pushed, and a timer that keeps
    its pending delay. *)
Definition speedPush (value beg fin : Z) (s : list (Z * Z * Z))
    : list (Z * Z * Z) := (value, beg, fin) :: s.

Definition showSpeed (s : list (Z * Z * Z)) : string :=
  pretty (length s).

Definition timerStart (delay : Z) (t : option Z) : option Z := Some delay.

Definition timerStop (t : option Z) : option Z := None.

Definition someMetrics : Metrics.Metrics :=
  Metrics.mkMetrics 5 1000 (Some 40) [(1, 0, 1000)] [(3, 0, 1000)] (Some 4000).

(** A writer with two item tables, durable up to blocks 7 and 5, and
    four buffered rows of [blocks]. *)
Definition someWriter : @BlockWriter.Writer string :=
  BlockWriter.mkWriter
    {[ "liquidity" := BlockWriter.mkBuffer [] 7;
       "price" := BlockWriter.mkBuffer [(6, "p6")] 5 ]}
    [ mkHeader 4 "0x04" "0x03" None None; block5;
      mkHeader 6 "0x06" "0x05" None None;
      mkHeader 7 "0x07" "0x06" None None ]
    [].

End Demo.

(** ** Further vocabulary for the inspector *)

Module Listing.

Import Inspect.

(** The rows of a listing that describe the columns of [table]. *)
Definition tableColumns (rows : list ColumnRow) (table : string)
    : list ColumnRow :=
  List.filter (λ r, String.eqb (col_table r) table) rows.

(** The contract of an item table, for a given hash predicate. *)
Definition itemSchema (hashType : string → Prop)
    (fields : list ColumnRow) : Prop :=
  Contract.required fields "block_number" Contract.specBlockNumber
  ∧ Contract.required fields "block_hash" hashType
  ∧ Contract.optional fields "block_timestamp" Contract.specDateTime.

(** The two messages of [assertColumn]. *)
Definition missingColumn (db table name : string) : string :=
  "table '" +:+ db +:+ "." +:+ table
  +:+ "' does not have column '" +:+ name +:+ "'".

Definition unsupportedType (db table name type description : string)
    : string :=
  "column '" +:+ name +:+ "' of table '" +:+ db +:+ "."
  +:+ table +:+ "' has unsupported type " +:+ type
  +:+ ", " +:+ description.

End Listing.

(** ** Kinds of events in a trace of the processor *)

Module Events.

Import Loop.

Section Kinds.

Context {B Row Err : Type}.

(** The calls made before the processing loop starts: the two queries
    and the reconciliation statements. *)
Definition isStartupEvent (ev : @event B Row Err) : bool :=
  match ev with
  | EvQueryColumns _ _ | EvQueryHead _ _ | EvCommand _ _ => true
  | _ => false
  end.

(** The calls made for one block: [map], [drain], [push]. *)
Definition isBlockEvent (ev : @event B Row Err) : bool :=
  match ev with
  | EvMap _ _ | EvDrain _ | EvPush _ _ _ => true
  | _ => false
  end.

(** The calls the loop over the stream makes: those for the blocks,
    the flushes at the head and the registrations with the metrics. *)
Definition isStreamEvent (ev : @event B Row Err) : bool :=
  match ev with
  | EvMap _ _ | EvDrain _ | EvPush _ _ _ | EvFlush _
  | EvRegisterBatch _ _ => true
  | _ => false
  end.

(** The reconciliation statement for [table], given the head. *)
Definition reconcileStatement (database : string) (head : option BlockRef)
    (table : string) : string :=
  match head with
  | Some h => deleteAbove database table (ref_number h)
  | None => deleteAll database table
  end.

(** The query for the head, as [runClickhouseProcessing] builds it. *)
Definition headQuery (database : string) : string :=
  "SELECT number, hash FROM " +:+ database
  +:+ ".blocks ORDER BY number DESC LIMIT 1".

End Kinds.

End Events.

(** ** More collaborators for examples *)

Module DemoRun.

(** A store whose columns listing is that of a database with a signed
    [block_number], and whose [blocks] table is empty. *)
Definition queryColumns (db : string) (w : Demo.World)
    : result string (list Inspect.ColumnRow) * Demo.World :=
  (Ok Demo.signedItemOnly, w).

Definition queryHead (sql : string) (w : Demo.World)
    : result string (list BlockRef) * Demo.World := (Ok [], w).

Definition newError (message : string) : string := message.

Definition newBlockWriter (database : string)
    (tableMap : list (string * unit)) (w : Demo.World) : Demo.World := w.

Definition createDataStream (head : option BlockRef)
    : DataStream BlockHeader string := Demo.twoBatches.

End DemoRun.

(** ** The ERC-20 example: balance updates of transfers *)

Module Erc20.

(** What [erc20.events.Transfer.decode] returns. *)
Record Transfer : Type := mkTransfer {
  from : string;
  to : string;
  value : Z
}.

(** A row of [balance_updates]. *)
Record BalanceUpdate : Type := mkUpdate {
  log_index : Z;
  transaction_hash : string;
  contract : string;
  account : string;
  counterparty : string;
  amount : string
}.

(** The [Data] class. *)
Record Data : Type := mkData {
  balance_updates : list BalanceUpdate
}.

Section Map.

(** The logs of the portal, through the fields the mapping reads, and
    the two functions of the generated [abi/erc20] it calls. *)
Context {Log : Type}.
Variable logIndex : Log → Z.
Variable transactionHash : Log → string.
Variable address : Log → string.
Variable isTransfer : Log → bool.
Variable decode : Log → Transfer.

(** The body of the loop over the logs: the rows it appends to
    [data.balance_updates]. *)
Definition pushUpdates (log : Log) (balance_updates : list BalanceUpdate)
    : list BalanceUpdate :=
  if isTransfer log then
    let t := decode log in
    let common := λ account counterparty amount,
      mkUpdate (logIndex log) (transactionHash log) (address log)
               account counterparty amount in
    if String.eqb (from t) (to t) then
      balance_updates ++ [common (from t) (to t) "0"]
    else
      balance_updates
      ++ [common (from t) (to t) (pretty (- value t))]
      ++ [common (to t) (from t) (pretty (value t))]
  else balance_updates.

(** [for (let log of (block.logs ?? []))]. *)
Definition forLogs (logs : list Log) (balance_updates : list BalanceUpdate)
    : list BalanceUpdate :=
  fold_left (λ updates log, pushUpdates log updates) logs balance_updates.

(** The mapping function, on the [logs] field of a block. *)
Definition map (logs : option (list Log)) : Data :=
  mkData (forLogs (default [] logs) []).

(** The transfers among the logs, decoded, in order. *)
Definition transfers (logs : list Log) : list Transfer :=
  decode <$> List.filter isTransfer logs.

(** The numbers whose decimal writing the rows of one log carry. *)
Definition deltas (log : Log) : list Z :=
  if isTransfer log then
    let t := decode log in
    if String.eqb (from t) (to t) then [0] else [- value t; value t]
  else [].

End Map.

(** The sum of a list of integers. *)
Definition sumZ (zs : list Z) : Z := foldr Z.add 0 zs.

(** What the transfers change in the balance of [a]: what it receives
    minus what it sends. *)
Definition netChange (a : string) (ts : list Transfer) : Z :=
  sumZ ((λ t, (if String.eqb (to t) a then value t else 0)
              - (if String.eqb (from t) a then value t else 0)) <$> ts).

(** The amounts [zs] read for the rows, restricted to the rows of
    account [a]. *)
Definition amountsOf (a : string) (rows : list BalanceUpdate)
    (zs : list Z) : list Z :=
  snd <$> List.filter (λ p, String.eqb (account (fst p)) a) (zip rows zs).

(** The number of rows one transfer gives. *)
Definition rowsPerTransfer (t : Transfer) : nat :=
  if String.eqb (from t) (to t) then 1%nat else 2%nat.

End Erc20.

(** ** The schema contract, column by column *)

Module Expected.

Import Inspect Contract Listing.

(** In a ClickHouse listing the only type names that start with
    [FixedString] are the types [FixedString(N)]. *)
Definition fixedStringsSized (fields : list ColumnRow) : Prop :=
  ∀ f, f ∈ fields →
    String.prefix "FixedString" (col_type f) = true →
    isFixedStringN (col_type f).

(** What the contract says of one column: its name, the types allowed,
    the words of the error for another type, and whether the column may
    be absent. *)
Record ContractColumn : Type := mkContractColumn {
  cname : string;
  allowed : string → Prop;
  cdescription : string;
  coptional : bool
}.

(** The columns of [blocks], in the order they are checked. *)
Definition blocksColumns : list ContractColumn :=
  [ mkContractColumn "number" specBlockNumber
      "only UInt32 and UInt64 types are allowed" false;
    mkContractColumn "hash" prefixHash
      "only String or FixedString(N) types are allowed" false;
    mkContractColumn "parent_number" specBlockNumber
      "only UInt32 and UInt64 types are allowed" true;
    mkContractColumn "parent_hash" prefixHash
      "only String or FixedString(N) types are allowed" false;
    mkContractColumn "timestamp" specDateTime
      "only DateTime type is allowed" true ].

(** The columns of an item table, in the order they are checked. *)
Definition itemColumns : list ContractColumn :=
  [ mkContractColumn "block_number" specBlockNumber
      "only UInt32 and UInt64 types are allowed" false;
    mkContractColumn "block_hash" prefixHash
      "only String or FixedString(N) types are allowed" false;
    mkContractColumn "block_timestamp" specDateTime
      "only DateTime type is allowed" true ].

Definition contractColumns (table : string) : list ContractColumn :=
  if String.eqb table "blocks" then blocksColumns else itemColumns.

(** A column meets the contract: it has an allowed type, or it is
    absent and optional. *)
Definition columnOk (fields : list ColumnRow) (c : ContractColumn) : Prop :=
  match columnType fields (cname c) with
  | None => coptional c = true
  | Some type => allowed c type
  end.

(** A column breaks the contract, with the error [e] it is reported by:
    it is absent though required, or it has a type that is not
    allowed. *)
Definition columnFails (db table : string) (fields : list ColumnRow)
    (c : ContractColumn) (e : string) : Prop :=
  (columnType fields (cname c) = None
   ∧ coptional c = false
   ∧ e = missingColumn db table (cname c))
  ∨ ∃ found,
      columnType fields (cname c) = Some found
      ∧ ¬ allowed c found
      ∧ e = unsupportedType db table (cname c) found (cdescription c).

(** All columns of a table meet the contract. *)
Definition tableOk (table : string) (fields : list ColumnRow) : Prop :=
  Forall (columnOk fields) (contractColumns table).

(** The column error of a table: the error of its first column, in the
    order of the contract, that breaks it. *)
Definition tableError (db table : string) (fields : list ColumnRow)
    (e : string) : Prop :=
  ∃ pre c post,
    contractColumns table = pre ++ c :: post
    ∧ Forall (columnOk fields) pre
    ∧ columnFails db table fields c e.

(** The tables of a listing, each once, in order of first occurrence. *)
Definition tablesInOrder (rows : list ColumnRow) : list string :=
  fold_left (λ seen r,
               if decide (col_table r ∈ seen) then seen
               else seen ++ [col_table r]) rows [].

(** The assertions of [checkTable], as a list of column name, expected
    [TypeDef] and optional flag, and their sequencing. *)
Definition assertions (table : string) : list (string * TypeDef * bool) :=
  if String.eqb table "blocks" then
    [ ("number", BlockNumber, false); ("hash", Hash, false);
      ("parent_number", BlockNumber, true); ("parent_hash", Hash, false);
      ("timestamp", DataTime, true) ]
  else
    [ ("block_number", BlockNumber, false); ("block_hash", Hash, false);
      ("block_timestamp", DataTime, true) ].

Fixpoint assertAll (db table : string) (fields : list ColumnRow)
    (asserts : list (string * TypeDef * bool)) : result string unit :=
  match asserts with
  | [] => Ok tt
  | (name, type, optional) :: rest =>
      andThen (assertColumn db table fields name type optional)
              (assertAll db table fields rest)
  end.

(** An assertion of the code checks a column of the contract. *)
Definition checks (a : string * TypeDef * bool) (c : ContractColumn)
    : Prop :=
  fst (fst a) = cname c
  ∧ snd a = coptional c
  ∧ description (snd (fst a)) = cdescription c
  ∧ ∀ type, type_match (snd (fst a)) type = true ↔ allowed c type.

End Expected.

(** * Properties *)

(** ** Schema inspection *)

Module InspectFacts.

Import Inspect Contract.

Lemma andThen_ok (r k : result string unit) :
  andThen r k = Ok tt ↔ r = Ok tt ∧ k = Ok tt.
Proof.
  destruct r as [[]|e]; simpl; split.
  - intros Hk. by split.
  - by intros [_ Hk].
  - discriminate.
  - by intros [? _].
Qed.

Lemma assertColumn_required db table fields name type :
  assertColumn db table fields name type false = Ok tt
  ↔ required fields name (λ t, type_match type t = true).
Proof.
  unfold assertColumn, required, columnType.
  destruct (find _ fields) as [def|]; simpl.
  - destruct (type_match type (col_type def)) eqn:Hm; split.
    + intros _. exists (col_type def). by split.
    + done.
    + discriminate.
    + intros (t & [= <-] & Ht). congruence.
  - split; [discriminate|]. by intros (t & ? & _).
Qed.

Lemma assertColumn_optional db table fields name type :
  assertColumn db table fields name type true = Ok tt
  ↔ optional fields name (λ t, type_match type t = true).
Proof.
  unfold assertColumn, optional, columnType.
  destruct (find _ fields) as [def|]; simpl.
  - destruct (type_match type (col_type def)) eqn:Hm; split.
    + intros _ t [= <-]. done.
    + done.
    + discriminate.
    + intros Hall. specialize (Hall _ eq_refl). congruence.
  - split; [|done]. intros _ t. discriminate.
Qed.

Lemma BlockNumber_match type :
  type_match BlockNumber type = true ↔ specBlockNumber type.
Proof.
  unfold specBlockNumber. simpl. rewrite !orb_true_iff, !String.eqb_eq.
  split; [intros [?|[?|?]]|intros [?|?]]; auto; done.
Qed.

Lemma Hash_match type :
  type_match Hash type = true ↔ prefixHash type.
Proof.
  unfold prefixHash. simpl. by rewrite orb_true_iff, String.eqb_eq.
Qed.

Lemma DataTime_match type :
  type_match DataTime type = true ↔ specDateTime type.
Proof. unfold specDateTime. simpl. by rewrite String.eqb_eq. Qed.

Lemma required_iff fields name (P Q : string → Prop) :
  (∀ t, P t ↔ Q t) → required fields name P ↔ required fields name Q.
Proof.
  intros HPQ. unfold required.
  split; intros (t & ? & ?); exists t; split; auto; by apply HPQ.
Qed.

Lemma optional_iff fields name (P Q : string → Prop) :
  (∀ t, P t ↔ Q t) → optional fields name P ↔ optional fields name Q.
Proof.
  intros HPQ. unfold optional. split; intros Hall t Ht; apply HPQ; auto.
Qed.

(** Every [FixedString(N)] is accepted as a hash type. *)
Lemma specHash_prefixHash type : specHash type → prefixHash type.
Proof.
  intros [->|(n & ->)]; [by left|right]. reflexivity.
Qed.


Lemma checkTable_blocks db fields :
  checkTable db "blocks" fields = Ok tt ↔ blocksSchema prefixHash fields.
Proof.
  unfold checkTable, blocksSchema. simpl.
  rewrite !andThen_ok, !assertColumn_required, !assertColumn_optional.
  rewrite (required_iff _ _ _ _ BlockNumber_match).
  rewrite !(required_iff _ _ _ _ Hash_match).
  rewrite (optional_iff _ _ _ _ BlockNumber_match).
  rewrite (optional_iff _ _ _ _ DataTime_match).
  tauto.
Qed.

(** The inspector tests the prefix [FixedString] only: on a listing
    with the type name [FixedString] without a length, which ClickHouse
    does not report, the [blocks] table is accepted though [hash] is no
    [FixedString(N)]. *)
Lemma blocks_schema_strict_hash_fails :
  ¬ (checkTable "db" "blocks" Demo.looseBlocks = Ok tt
     ↔ blocksSchema specHash Demo.looseBlocks).
Proof.
  intros [Hto _]. specialize (Hto eq_refl).
  destruct Hto as (_ & (t & Ht & Hhash) & _).
  vm_compute in Ht. injection Ht as <-.
  destruct Hhash as [?|(n & Hn)]; [discriminate|].
  simpl in Hn. discriminate.
Qed.

Lemma columnType_elem fields name type :
  columnType fields name = Some type →
  ∃ f, f ∈ fields ∧ col_type f = type.
Proof.
  unfold columnType.
  destruct (find _ fields) as [f|] eqn:Hfind; [|discriminate].
  intros [= <-]. apply find_some in Hfind as [Hin _].
  exists f. split; [by apply list_elem_of_In|done].
Qed.

Lemma sized_required_hash fields name :
  Expected.fixedStringsSized fields →
  required fields name prefixHash ↔ required fields name specHash.
Proof.
  intros Hsized. unfold required. split.
  - intros (type & Hcol & Hhash). exists type. split; [done|].
    destruct Hhash as [->|Hprefix]; [by left|right].
    destruct (columnType_elem _ _ _ Hcol) as (f & Hin & <-).
    by apply Hsized.
  - intros (type & Hcol & Hhash). exists type. split; [done|].
    by apply specHash_prefixHash.
Qed.

(** C5.  On a listing whose types named [FixedString...] are the types
    [FixedString(N)], as ClickHouse reports them, the check of table
    [blocks] succeeds if and only if it has columns [number] (UInt32 or
    UInt64), [hash] and [parent_hash] (String or some FixedString(N)),
    and its columns [parent_number] (UInt32 or UInt64) and [timestamp]
    (exactly DateTime) are absent or of a matching type. *)
Theorem blocks_schema_validation db fields :
  Expected.fixedStringsSized fields →
  checkTable db "blocks" fields = Ok tt ↔ blocksSchema specHash fields.
Proof.
  intros Hsized. rewrite checkTable_blocks. unfold blocksSchema.
  by rewrite !(sized_required_hash _ _ Hsized).
Qed.

(** The [blocks] table of [evm/db_tvl.sql]. *)
Lemma blocks_schema_validation_witness :
  checkTable "u3_tvl_src" "blocks" Demo.tvlBlocks = Ok tt
  ↔ blocksSchema specHash Demo.tvlBlocks.
Proof.
  apply (blocks_schema_validation "u3_tvl_src" Demo.tvlBlocks).
  intros f Hin Hprefix. unfold Demo.tvlBlocks in Hin.
  repeat (apply elem_of_cons in Hin as [->|Hin];
          [first [discriminate Hprefix | by exists 66%N]|]).
  by apply elem_of_nil in Hin.
Defined.

(** C6 (the code departs from its documentation).  A database whose
    item table [x] has a valid [block_number] column and no [block_hash]
    column is rejected. *)
Theorem item_table_without_block_hash_rejected :
  inspectDatabase "db" Demo.noBlockHash
  = Throw "table 'db.x' does not have column 'block_hash'".
Proof. reflexivity. Qed.

(** Keys of the grouped listing come from the rows. *)
Lemma keys_group_insert k r m k' :
  k' ∈ keys (group_insert k r m) → k' = k ∨ k' ∈ keys m.
Proof.
  unfold keys. induction m as [|[k0 g] m IH]; simpl.
  - rewrite list_elem_of_singleton. auto.
  - destruct (String.eqb k0 k); simpl; rewrite !elem_of_cons; [tauto|].
    intros [?|Hin]; [tauto|]. destruct (IH Hin); tauto.
Qed.

Lemma keys_fold_group rows m k :
  k ∈ keys (fold_left (λ m r, group_insert (col_table r) r m) rows m) →
  k ∈ keys m ∨ ∃ r, r ∈ rows ∧ col_table r = k.
Proof.
  revert m. induction rows as [|r rows IH]; simpl; intros m Hk; [by left|].
  destruct (IH _ Hk) as [Hin|(r' & ? & ?)].
  - destruct (keys_group_insert _ _ _ _ Hin) as [->|?]; [|by left].
    right. exists r. split; [left|done].
  - right. exists r'. split; [by right|done].
Qed.

Lemma keys_groupBy rows k :
  k ∈ keys (groupBy rows col_table) → ∃ r, r ∈ rows ∧ col_table r = k.
Proof.
  intros Hk. destruct (keys_fold_group _ _ _ Hk) as [Hnil|?]; [|done].
  by apply elem_of_nil in Hnil.
Qed.

Lemma has_keys m k : has m k = true ↔ k ∈ keys m.
Proof.
  unfold has, keys. rewrite existsb_exists, list_elem_of_fmap.
  split.
  - intros ([k0 g] & Hin & Heq). apply String.eqb_eq in Heq. simpl in Heq.
    exists (k0, g). split; [done|]. by apply list_elem_of_In.
  - intros ([k0 g] & -> & Hin). exists (k0, g). split; [by apply list_elem_of_In|].
    simpl. apply String.eqb_refl.
Qed.



End InspectFacts.

(** ** The processing loop *)

Module LoopFacts.

Import Loop.

Section Facts.

Context {B Row Err World : Type} `{BlockBase B}.

Variable command : string → World → result Err unit * World.
Variable drain : World → result Err unit * World.
Variable push : BlockHeader → gmap string (list Row) → World
                → result Err unit * World.
Variable flush : World → result Err unit * World.
Variable isHealthy : World → bool.
Variable map : B → result Err (gmap string (list Row)).
Variable queryColumns :
  string → World → result Err (list Inspect.ColumnRow) * World.
Variable queryHead : string → World → result Err (list BlockRef) * World.
Variable newError : string → Err.
Context {Options : Type}.
Variable noOptions : Options.
Variable newBlockWriter : string → list (string * Options) → World → World.

Local Abbreviation forBlocks := (Loop.forBlocks drain push map).
Local Abbreviation processBatch := (Loop.processBatch drain push flush map).
Local Abbreviation forStream := (Loop.forStream drain push flush map).
Local Abbreviation processingLoop :=
  (Loop.processingLoop drain push flush isHealthy map).
Local Abbreviation clearPartialData :=
  (@Loop.clearPartialData B Row Err World command).
Local Abbreviation forTables := (@Loop.forTables B Row Err World command).
Local Abbreviation event := (@Loop.event B Row Err).

(** *** Counting rows *)

Lemma countRows_rowCount (tables : gmap string (list Row)) (n : nat) :
  countRows tables n = (n + rowCount tables)%nat.
Proof.
  unfold countRows, rowCount. rewrite map_fold_foldr.
  induction (map_to_list tables) as [|[k rows] l IH]; simpl; [lia|].
  rewrite IH. lia.
Qed.

(** *** One iteration of the loop over blocks *)

Lemma forBlocks_cons (b : B) (bs : list B) (n : nat) (w : World) :
  forBlocks (b :: bs) n w =
  match map b with
  | Throw e => mkOutcome (Throw e) w [EvMap b (Throw e)]
  | Ok t =>
      match drain w with
      | (Throw e, w1) =>
          mkOutcome (Throw e) w1 [EvMap b (Ok t); EvDrain (Throw e)]
      | (Ok _, w1) =>
          match push (header b) t w1 with
          | (Throw e, w2) =>
              mkOutcome (Throw e) w2
                [EvMap b (Ok t); EvDrain (Ok tt); EvPush (header b) t (Throw e)]
          | (Ok _, w2) =>
              let o := forBlocks bs (countRows t (n + 1)%nat) w2 in
              mkOutcome (res o) (world o) (blockSteps b t ++ trace o)
          end
      end
  end.
Proof.
  simpl. unfold bind, call. simpl.
  destruct (map b) as [t|e]; simpl; [|done].
  destruct (drain w) as [[[]|e] w1]; simpl; [|done].
  destruct (push (header b) t w1) as [[[]|e] w2]; simpl; [|done].
  done.
Qed.


Lemma pushes_blockSteps (b : B) (t : gmap string (list Row)) (tr : list event) :
  pushes (blockSteps b t ++ tr) = (header b, t) :: pushes tr.
Proof. reflexivity. Qed.

(** Pushes are made once per block, in source order, each with the
    output of the mapping function for that block. *)
Lemma forBlocks_pushes (bs : list B) (n : nat) (w : World) :
  ∃ (k : nat) (outs : list (gmap string (list Row))),
    (k ≤ length bs)%nat
    ∧ Forall2 (λ b t, map b = Ok t) (take k bs) outs
    ∧ pushes (trace (forBlocks bs n w)) = zip (header <$> take k bs) outs
    ∧ (is_ok (res (forBlocks bs n w)) = true → k = length bs).
Proof.
  revert n w. induction bs as [|b bs IH]; intros n w.
  - exists 0%nat, []. simpl. repeat split; auto.
  - rewrite forBlocks_cons.
    destruct (map b) as [t|e] eqn:Hmap.
    2:{ exists 0%nat, []. simpl. repeat split; auto with lia; discriminate. }
    destruct (drain w) as [[[]|e] w1].
    2:{ exists 0%nat, []. simpl. repeat split; auto with lia; discriminate. }
    destruct (push (header b) t w1) as [[[]|e] w2].
    2:{ exists 1%nat, [t]. simpl. rewrite take_0.
        repeat split; auto with lia; discriminate. }
    destruct (IH (countRows t (n + 1)%nat) w2) as (k & outs & Hk & Hmaps & Hp & Hok).
    exists (S k), (t :: outs). cbn [trace res].
    rewrite pushes_blockSteps, Hp. simpl.
    repeat split; auto with lia.
Qed.

(** Every call of [push] comes right after a completed [drain], itself
    right after the [map] of the block whose header and output it
    pushes. *)
Lemma forBlocks_push_after_drain (bs : list B) (n : nat) (w : World)
    (pre post : list event) (h : BlockHeader)
    (t : gmap string (list Row)) (r : result Err unit) :
  trace (forBlocks bs n w) = pre ++ EvPush h t r :: post →
  ∃ (pre' : list event) (b : B),
    pre = pre' ++ [EvMap b (Ok t); EvDrain (Ok tt)]
    ∧ h = header b ∧ map b = Ok t ∧ b ∈ bs.
Proof.
  revert n w pre. induction bs as [|b bs IH]; intros n w pre.
  - simpl. intros Hnil. by destruct pre.
  - rewrite forBlocks_cons.
    destruct (map b) as [t0|e] eqn:Hmap.
    2:{ simpl. intros Heq. destruct pre as [|? [|? ?]]; simplify_eq/=. }
    destruct (drain w) as [[[]|e] w1].
    2:{ simpl. intros Heq.
        destruct pre as [|? [|? [|? ?]]]; simplify_eq/=. }
    destruct (push (header b) t0 w1) as [[[]|e] w2].
    2:{ simpl. intros Heq.
        destruct pre as [|? [|? [|? [|? ?]]]]; simplify_eq/=.
        exists [], b. repeat split; auto. left. }
    cbn [trace]. intros Heq.
    destruct pre as [|p1 [|p2 [|p3 pre3]]]; simpl in Heq; try discriminate.
    + simplify_eq/=. exists [], b. repeat split; auto. left.
    + injection Heq as <- <- <- Heq.
      destruct (IH _ _ _ Heq) as (pre' & b' & -> & -> & Hb' & Hin).
      exists (blockSteps b t0 ++ pre'), b'. repeat split; auto. by right.
Qed.

(** *** A whole batch *)

(** An event built with another constructor than all those of a listed
    trace is not in it. *)
Local Ltac not_listed :=
  let Hin := fresh "Hin" in
  intros Hin;
  repeat (apply elem_of_cons in Hin as [Hin|Hin]; [discriminate Hin|]);
  by apply elem_of_nil in Hin.

Lemma forBlocks_ok (bs : list B) (n n' : nat) (w : World) :
  res (forBlocks bs n w) = Ok n' →
  ∃ outs : list (gmap string (list Row)),
    Forall2 (λ b t, map b = Ok t) bs outs
    ∧ n' = (n + length bs + sum_list_with rowCount outs)%nat.
Proof.
  revert n w. induction bs as [|b bs IH]; intros n w.
  - simpl. intros [= <-]. exists []. split; [constructor|simpl; lia].
  - rewrite forBlocks_cons.
    destruct (map b) as [t|e] eqn:Hmap; [|discriminate].
    destruct (drain w) as [[[]|e] w1]; [|discriminate].
    destruct (push (header b) t w1) as [[[]|e] w2]; [|discriminate].
    cbn [res]. intros Hres.
    destruct (IH _ _ Hres) as (outs & Hmaps & ->).
    exists (t :: outs). split; [by constructor|].
    rewrite countRows_rowCount. simpl. lia.
Qed.

Lemma forBlocks_no_register (bs : list B) (n : nat) (w : World)
    (batch : DataBatch B) (rows : nat) :
  EvRegisterBatch batch rows ∉ trace (forBlocks bs n w).
Proof.
  revert n w. induction bs as [|b bs IH]; intros n w.
  - simpl. apply not_elem_of_nil.
  - rewrite forBlocks_cons.
    destruct (map b) as [t|e]; [|simpl; not_listed].
    destruct (drain w) as [[[]|e] w1]; [|simpl; not_listed].
    destruct (push (header b) t w1) as [[[]|e] w2]; [|simpl; not_listed].
    cbn [trace]. rewrite elem_of_app. intros [Hin|Hin].
    + revert Hin. unfold blockSteps. not_listed.
    + by apply IH in Hin.
Qed.

Lemma processBatch_unfold (batch : DataBatch B) (w : World) :
  processBatch batch w =
  let o := forBlocks (blocks batch) 0%nat w in
  match res o with
  | Throw e => mkOutcome (Throw e) (world o) (trace o)
  | Ok n =>
      if headSignal batch then
        match flush (world o) with
        | (Ok _, w') =>
            mkOutcome (Ok tt) w'
              (trace o ++ [EvFlush (Ok tt); EvRegisterBatch batch n])
        | (Throw e, w') =>
            mkOutcome (Throw e) w' (trace o ++ [EvFlush (Throw e)])
        end
      else mkOutcome (Ok tt) (world o) (trace o ++ [EvRegisterBatch batch n])
  end.
Proof.
  unfold Loop.processBatch, bind. cbn zeta.
  destruct (res (forBlocks (blocks batch) 0%nat w)) as [n|e]; [|done].
  destruct (headSignal batch); simpl; [|done].
  unfold call. destruct (flush _) as [[[]|e] w']; simpl; done.
Qed.

(** C10.  The row count a batch registers with the metrics is the
    number of its blocks plus the number of rows in all tables of all
    its blocks' mapping outputs; a batch that is processed to the end
    registers one. *)
Theorem registered_rows_count (batch : DataBatch B) (w : World) :
  (∀ batch' rows,
     EvRegisterBatch batch' rows ∈ trace (processBatch batch w) →
     batch' = batch
     ∧ ∃ outs : list (gmap string (list Row)),
         Forall2 (λ b t, map b = Ok t) (blocks batch) outs
         ∧ rows = (length (blocks batch) + sum_list_with rowCount outs)%nat)
  ∧ (is_ok (res (processBatch batch w)) = true →
     ∃ rows, EvRegisterBatch batch rows ∈ trace (processBatch batch w)).
Proof.
  rewrite processBatch_unfold. cbn zeta.
  pose proof (forBlocks_no_register (blocks batch) 0 w) as Hno.
  destruct (res (forBlocks (blocks batch) 0%nat w)) as [n|e] eqn:Hres.
  - apply forBlocks_ok in Hres. destruct Hres as (outs & Hmaps & Hn).
    assert (∀ batch' rows (tail : list event),
              (∀ ev, ev ∈ tail →
                 ev = EvRegisterBatch batch n ∨ ∃ r, ev = EvFlush r) →
              EvRegisterBatch batch' rows
                ∈ trace (forBlocks (blocks batch) 0%nat w) ++ tail →
              batch' = batch
              ∧ ∃ outs : list (gmap string (list Row)),
                  Forall2 (λ b t, map b = Ok t) (blocks batch) outs
                  ∧ rows = (length (blocks batch) + sum_list_with rowCount outs)%nat)
      as Hreg.
    { intros batch' rows tail Htail [Hin|Hin]%elem_of_app.
      - by apply Hno in Hin.
      - destruct (Htail _ Hin) as [[= -> ->]|[r ?]]; [|done].
        split; [done|]. exists outs. split; [done|]. lia. }
    destruct (headSignal batch).
    + destruct (flush _) as [[[]|e] w']; cbn [trace res]; split.
      * intros batch' rows. apply Hreg.
        intros ev Hev.
        repeat (apply elem_of_cons in Hev as [->|Hev]; [by eauto|]).
        by apply elem_of_nil in Hev.
      * intros _. exists n. rewrite elem_of_app, !elem_of_cons. auto.
      * intros batch' rows. apply Hreg.
        intros ev Hev.
        repeat (apply elem_of_cons in Hev as [->|Hev]; [by eauto|]).
        by apply elem_of_nil in Hev.
      * discriminate.
    + cbn [trace res]. split.
      * intros batch' rows. apply Hreg.
        intros ev Hev.
        repeat (apply elem_of_cons in Hev as [->|Hev]; [by eauto|]).
        by apply elem_of_nil in Hev.
      * intros _. exists n. rewrite elem_of_app, !elem_of_cons. auto.
  - cbn [trace res]. split; [|discriminate].
    intros batch' rows Hin. by apply Hno in Hin.
Qed.

(** C3 (amended).  An empty batch always makes the loop await
    [writer.flush()], whatever its [headNumber]: the flush is its first
    call, followed by the registration of the batch when it succeeds. *)
Theorem empty_batch_always_flushes (hn : option Z) (w : World) :
  processBatch (mkBatch [] hn) w =
  match flush w with
  | (Ok _, w') =>
      mkOutcome (Ok tt) w'
        [EvFlush (Ok tt); EvRegisterBatch (mkBatch [] hn) 0%nat]
  | (Throw e, w') => mkOutcome (Throw e) w' [EvFlush (Throw e)]
  end.
Proof. rewrite processBatch_unfold. reflexivity. Qed.

(** The head signal of a non-empty batch compares [headNumber], or -1
    when it is unset, with the number of the batch's last block. *)
Lemma headSignal_nonempty (bs : list B) (b : B) (hn : option Z) :
  headSignal (mkBatch (bs ++ [b]) hn) = true
  ↔ default (-1) hn ≤ number (header b).
Proof.
  unfold headSignal. simpl. rewrite last_snoc, length_app. simpl.
  replace (length bs + 1 =? 0)%nat with false
    by (symmetry; apply Nat.eqb_neq; lia).
  simpl. apply Z.leb_le.
Qed.

(** *** Errors *)

Lemma tryCatch_throw {A} (m : @M B Row Err World A)
    (handler : Err → @M B Row Err World A) (w : World) (e : Err) :
  res (m w) = Throw e →
  tryCatch m handler w =
  mkOutcome (res (handler e (world (m w)))) (world (handler e (world (m w))))
            (trace (m w) ++ trace (handler e (world (m w)))).
Proof. intros Hres. unfold tryCatch. cbn zeta. by rewrite Hres. Qed.

Lemma error_flushes_once_rethrows_eq
    (s : DataStream B Err) (w : World) (e : Err) :
  res (forStream s w) = Throw e →
  processingLoop s w =
  let o := forStream s w in
  if isHealthy (world o) then
    match flush (world o) with
    | (Ok _, w') => mkOutcome (Throw e) w' (trace o ++ [EvFlush (Ok tt)])
    | (Throw e', w') =>
        mkOutcome (Throw e) w'
          (trace o ++ [EvFlush (Throw e');
                       EvLogError e' "final flush of already mapped data failed"])
    end
  else mkOutcome (Throw e) (world o) (trace o).
Proof.
  intros Hres. unfold Loop.processingLoop.
  unfold bind at 1. cbn zeta. rewrite (tryCatch_throw _ _ _ _ Hres).
  unfold onError, bind, throw, flushBestEffort, ret. cbn zeta.
  destruct (isHealthy (world (forStream s w))); simpl.
  - destruct (flush (world (forStream s w))) as [[[]|e'] w']; simpl;
      by rewrite ?app_nil_r.
  - by rewrite !app_nil_r.
Qed.

(** C4.  When the loop over the stream throws [e]: if the writer is
    healthy, [writer.flush()] is attempted exactly once, its failure is
    only logged, and [e] is thrown again; if the writer is not healthy,
    [e] is thrown again with no further call. *)
Theorem error_flushes_once_and_rethrows
    (s : DataStream B Err) (w : World) (e : Err) :
  res (forStream s w) = Throw e →
  processingLoop s w =
  let o := forStream s w in
  if isHealthy (world o) then
    match flush (world o) with
    | (Ok _, w') => mkOutcome (Throw e) w' (trace o ++ [EvFlush (Ok tt)])
    | (Throw e', w') =>
        mkOutcome (Throw e) w'
          (trace o ++ [EvFlush (Throw e');
                       EvLogError e' "final flush of already mapped data failed"])
    end
  else mkOutcome (Throw e) (world o) (trace o).
Proof. apply error_flushes_once_rethrows_eq. Qed.


(** *** The whole stream *)

Lemma split_at_event (tr1 tr2 pre post : list event) (ev : event) :
  tr1 ++ tr2 = pre ++ ev :: post →
  (∃ mid, tr1 = pre ++ ev :: mid ∧ post = mid ++ tr2)
  ∨ (∃ mid, pre = tr1 ++ mid ∧ tr2 = mid ++ ev :: post).
Proof.
  revert pre. induction tr1 as [|e1 tr1 IH]; intros pre Heq.
  - right. exists pre. by split.
  - destruct pre as [|p pre]; simpl in Heq; injection Heq as -> Heq.
    + left. exists tr1. by split.
    + destruct (IH _ Heq) as [(mid & -> & ->)|(mid & -> & ->)].
      * left. exists mid. by split.
      * right. exists mid. by split.
Qed.

Lemma pushes_app (tr1 tr2 : list event) :
  pushes (tr1 ++ tr2) = pushes tr1 ++ pushes tr2.
Proof. apply omap_app. Qed.

Lemma pushesFollowDrain_silent (bs : list B) (tr : list event) :
  pushes tr = [] → pushesFollowDrain map bs tr.
Proof.
  intros Hnone pre post h t r ->.
  rewrite pushes_app in Hnone. simpl in Hnone.
  by destruct (pushes pre).
Qed.

Lemma pushesFollowDrain_app (bs1 bs2 : list B) (tr1 tr2 : list event) :
  pushesFollowDrain map bs1 tr1 → pushesFollowDrain map bs2 tr2 →
  pushesFollowDrain map (bs1 ++ bs2) (tr1 ++ tr2).
Proof.
  intros H1 H2 pre post h t r Heq.
  destruct (split_at_event _ _ _ _ _ Heq) as [(mid & Htr1 & _)|(mid & -> & Htr2)].
  - destruct (H1 _ _ _ _ _ Htr1) as (pre' & b & -> & ? & ? & ?).
    exists pre', b. rewrite elem_of_app. auto.
  - destruct (H2 _ _ _ _ _ Htr2) as (pre' & b & -> & ? & ? & ?).
    exists (tr1 ++ pre'), b. rewrite elem_of_app, <- app_assoc. auto.
Qed.

Lemma pushesFollowDrain_tail (bs : list B) (tr tail : list event) :
  pushesFollowDrain map bs tr → pushes tail = [] →
  pushesFollowDrain map bs (tr ++ tail).
Proof.
  intros Htr Htail pre post h t r Heq.
  destruct (split_at_event _ _ _ _ _ Heq) as [(mid & Htr1 & _)|(mid & -> & Htr2)].
  - by apply (Htr _ _ _ _ _ Htr1).
  - rewrite Htr2, pushes_app in Htail. simpl in Htail.
    by destruct (pushes mid).
Qed.

Lemma pushesInOrder_app (bs1 bs2 : list B) (c : bool) (tr1 tr2 : list event) :
  pushesInOrder map bs1 true tr1 → pushesInOrder map bs2 c tr2 →
  pushesInOrder map (bs1 ++ bs2) c (tr1 ++ tr2).
Proof.
  intros (k1 & outs1 & _ & Hmap1 & Hp1 & Hk1) (k2 & outs2 & Hle2 & Hmap2 & Hp2 & Hk2).
  specialize (Hk1 eq_refl). subst k1. rewrite firstn_all in Hmap1, Hp1.
  exists (length bs1 + k2)%nat, (outs1 ++ outs2).
  rewrite take_app_add, pushes_app, Hp1, Hp2, fmap_app, length_app.
  split; [lia|]. split; [by apply Forall2_app|]. split.
  - symmetry. apply zip_with_app.
    rewrite length_fmap. by apply Forall2_length in Hmap1.
  - intros Hc. rewrite (Hk2 Hc). done.
Qed.

Lemma pushesInOrder_stop (bs1 bs2 : list B) (c : bool) (tr : list event) :
  pushesInOrder map bs1 c tr → pushesInOrder map (bs1 ++ bs2) false tr.
Proof.
  intros (k & outs & Hle & Hmap & Hp & _). exists k, outs.
  rewrite take_app_le, length_app by done.
  split; [lia|]. split; [done|]. split; [done|discriminate].
Qed.

Lemma pushesInOrder_silent (bs : list B) (c : bool) (tr tail : list event) :
  pushes tail = [] → pushesInOrder map bs c tr →
  pushesInOrder map bs c (tr ++ tail).
Proof.
  intros Htail (k & outs & ?). exists k, outs.
  by rewrite pushes_app, Htail, app_nil_r.
Qed.

Lemma pushesInOrder_weaken (bs : list B) (c : bool) (tr : list event) :
  pushesInOrder map bs c tr → pushesInOrder map bs false tr.
Proof.
  intros (k & outs & ? & ? & ? & _). exists k, outs.
  repeat split; auto. discriminate.
Qed.

Lemma processBatch_pushes (batch : DataBatch B) (w : World) :
  pushesFollowDrain map (blocks batch) (trace (processBatch batch w))
  ∧ pushesInOrder map (blocks batch) (is_ok (res (processBatch batch w)))
      (trace (processBatch batch w)).
Proof.
  rewrite processBatch_unfold. cbn zeta.
  pose proof (forBlocks_push_after_drain (blocks batch) 0 w) as Hfd.
  pose proof (forBlocks_pushes (blocks batch) 0 w) as Hio.
  assert (pushesFollowDrain map (blocks batch)
            (trace (forBlocks (blocks batch) 0%nat w))) as Hfd'.
  { intros pre post h t r. apply Hfd. }
  assert (∀ tail, pushes tail = [] →
            pushesFollowDrain map (blocks batch)
              (trace (forBlocks (blocks batch) 0%nat w) ++ tail)) as Hfd_tail.
  { intros tail Htail. by apply pushesFollowDrain_tail. }
  destruct (res (forBlocks (blocks batch) 0%nat w)) as [n|e].
  - assert (pushesInOrder map (blocks batch) true
              (trace (forBlocks (blocks batch) 0%nat w))) as Hio' by done.
    destruct (headSignal batch).
    + destruct (flush _) as [[[]|e] w']; cbn [trace res]; split;
        try (by apply Hfd_tail);
        try (by apply pushesInOrder_silent).
      apply pushesInOrder_silent; [done|]. by eapply pushesInOrder_weaken.
    + cbn [trace res]. split; [by apply Hfd_tail|].
      by apply pushesInOrder_silent.
  - cbn [trace res]. split; [done|].
    destruct Hio as (k & outs & ? & ? & ? & _). exists k, outs.
    repeat split; auto. discriminate.
Qed.

Lemma forStream_pushes (s : DataStream B Err) (w : World) :
  pushesFollowDrain map (streamBlocks s) (trace (forStream s w))
  ∧ pushesInOrder map (streamBlocks s) (is_ok (res (forStream s w)))
      (trace (forStream s w)).
Proof.
  revert w. induction s as [|e|batch rest IH]; intros w.
  - simpl. split; [by apply pushesFollowDrain_silent|].
    exists 0%nat, []. simpl. repeat split; auto.
  - simpl. split; [by apply pushesFollowDrain_silent|].
    exists 0%nat, []. simpl. repeat split; auto.
  - destruct (processBatch_pushes batch w) as [Hfd Hio].
    simpl. unfold bind. cbn zeta.
    destruct (res (processBatch batch w)) as [[]|e]; cbn [trace res].
    + destruct (IH (world (processBatch batch w))) as [Hfd' Hio'].
      split; [by apply pushesFollowDrain_app|by apply pushesInOrder_app].
    + split.
      * intros pre post h t r Heq.
        destruct (Hfd _ _ _ _ _ Heq) as (pre' & b & ? & ? & ? & ?).
        exists pre', b. rewrite elem_of_app. auto.
      * by eapply pushesInOrder_stop.
Qed.

(** C8.  For every block of every batch the loop awaits [map(block)],
    then awaits [writer.drain()], and only then calls [writer.push] with
    the block's header and mapping output: in the trace of the whole
    run each call of [push] is immediately preceded by a completed
    [drain] and that by the [map] of its block, and the pushes are those
    of the stream's blocks in source order, one per block (all of them
    when the run completes). *)
Theorem push_after_map_and_drain (s : DataStream B Err) (w : World) :
  (∀ pre post h t r,
     trace (processingLoop s w) = pre ++ EvPush h t r :: post →
     ∃ pre' b, pre = pre' ++ [EvMap b (Ok t); EvDrain (Ok tt)]
               ∧ h = header b ∧ map b = Ok t ∧ b ∈ streamBlocks s)
  ∧ (∃ k outs,
       (k ≤ length (streamBlocks s))%nat
       ∧ Forall2 (λ b t, map b = Ok t) (take k (streamBlocks s)) outs
       ∧ pushes (trace (processingLoop s w))
         = zip (header <$> take k (streamBlocks s)) outs
       ∧ (is_ok (res (processingLoop s w)) = true →
          k = length (streamBlocks s))).
Proof.
  destruct (forStream_pushes s w) as [Hfd Hio].
  assert (∃ tail, pushes tail = []
            ∧ trace (processingLoop s w) = trace (forStream s w) ++ tail
            ∧ (is_ok (res (processingLoop s w)) = true →
               is_ok (res (forStream s w)) = true)) as (tail & Htail & Htr & Hres).
  { destruct (res (forStream s w)) as [[]|e] eqn:Hs.
    - unfold Loop.processingLoop, bind, tryCatch, call, emit. cbn zeta.
      rewrite Hs. cbn [res world trace].
      destruct (flush (world (forStream s w))) as [[[]|e] w'];
        cbn [res world trace]; rewrite Hs; cbn [res world trace].
      + by exists [EvFlush (Ok tt); EvReport].
      + by exists [EvFlush (Throw e)].
    - rewrite (error_flushes_once_rethrows_eq _ _ _ Hs). cbn zeta.
      destruct (isHealthy _).
      + destruct (flush _) as [[[]|e'] w']; cbn [res world trace];
          eexists; (split; [|split; [reflexivity|done]]); done.
      + exists []. by rewrite app_nil_r. }
  split.
  - fold (pushesFollowDrain map (streamBlocks s) (trace (processingLoop s w))).
    rewrite Htr. by apply pushesFollowDrain_tail.
  - fold (pushesInOrder map (streamBlocks s)
            (is_ok (res (processingLoop s w))) (trace (processingLoop s w))).
    rewrite Htr. apply pushesInOrder_silent; [done|].
    destruct Hio as (k & outs & ? & ? & ? & Hk). exists k, outs.
    repeat split; auto.
Qed.

(** *** Reconciliation *)

Lemma forTables_trace (stmt : string → string) (tableList : list string)
    (w : World) :
  ∃ k : nat,
    (k ≤ length tableList)%nat
    ∧ commands (trace (forTables stmt tableList w)) = stmt <$> take k tableList
    ∧ length (trace (forTables stmt tableList w)) = k
    ∧ (is_ok (res (forTables stmt tableList w)) = true → k = length tableList).
Proof.
  revert w. induction tableList as [|table rest IH]; intros w.
  - exists 0%nat. simpl. auto.
  - simpl. unfold bind, call. cbn zeta.
    destruct (command (stmt table) w) as [[[]|e] w1]; cbn [res world trace].
    + destruct (IH w1) as (k & Hk & Hcmd & Hlen & Hok).
      exists (S k). simpl. unfold Loop.commands in *. simpl.
      rewrite Hcmd, Hlen. repeat split; auto with lia.
    + exists 1%nat. simpl. rewrite ?take_0.
      repeat split; auto with lia; discriminate.
Qed.

Lemma string_length_app (s1 s2 : string) :
  String.length (s1 +:+ s2) = (String.length s1 + String.length s2)%nat.
Proof. induction s1 as [|a s1 IH]; simpl; [done|by rewrite IH]. Qed.

Lemma string_app_inj_r (s s1 s2 : string) :
  s1 +:+ s = s2 +:+ s → s1 = s2.
Proof.
  revert s2. induction s1 as [|a s1 IH]; intros s2 Heq.
  - destruct s2 as [|b s2]; [done|]. exfalso.
    apply (f_equal String.length) in Heq.
    rewrite !string_length_app in Heq. simpl in Heq. lia.
  - destruct s2 as [|b s2].
    + exfalso. apply (f_equal String.length) in Heq.
      rewrite !string_length_app in Heq. simpl in Heq. lia.
    + simpl in Heq. injection Heq as -> Heq. f_equal. by apply IH.
Qed.

Lemma delete_statement_inj (database suffix table table' : string) :
  "DELETE FROM " +:+ database +:+ "." +:+ table +:+ suffix
  = "DELETE FROM " +:+ database +:+ "." +:+ table' +:+ suffix →
  table = table'.
Proof.
  intros Heq. do 3 apply String.app_inj in Heq.
  by apply string_app_inj_r in Heq.
Qed.

Lemma inspectDatabase_no_blocks (db : string) (rows : list Inspect.ColumnRow)
    (tableList : list string) :
  Inspect.inspectDatabase db rows = Ok tableList → "blocks" ∉ tableList.
Proof.
  unfold Inspect.inspectDatabase. cbn zeta.
  destruct (Inspect.checkTables _ _); [|discriminate].
  destruct (negb _); [discriminate|]. intros [= <-].
  rewrite list_elem_of_filter. tauto.
Qed.

(** A schema error ends the run after the columns query: nothing is
    deleted and no data is fetched. *)
Lemma schema_error_stops_run (db message : string)
    (clickhouseTables : option (gmap string Options))
    (createDataStream : option BlockRef → DataStream B Err)
    (rows : list Inspect.ColumnRow) (w w1 : World) :
  queryColumns db w = (Ok rows, w1) →
  Inspect.inspectDatabase db rows = Throw message →
  runClickhouseProcessing command queryColumns queryHead drain push flush
    isHealthy map newError noOptions newBlockWriter
    db clickhouseTables createDataStream w
  = mkOutcome (Throw (newError message)) w1 [EvQueryColumns db (Ok rows)].
Proof.
  intros Hquery Hcheck.
  unfold runClickhouseProcessing, bind at 1. cbn zeta.
  unfold Loop.inspectDatabase, bind, call. rewrite Hquery. cbn [res world trace].
  rewrite Hcheck. unfold throw. cbn [res world trace].
  by rewrite app_nil_r.
Qed.

(** C2.  With a head, [clearPartialData] gives the store, for the item
    tables in order, the text [DELETE FROM db.table WHERE block_number >
    n], [n] being the decimal writing of [head.number]; with no head,
    the text [DELETE FROM db.table WHERE block_number >= 0]; it makes no
    other call, stops at the first statement that fails, and covers
    every table when it returns.  On the tables that [inspectDatabase]
    returns it gives no statement for [blocks]. *)
Theorem reconcile_statements (database : string) (tableList : list string)
    (head : option BlockRef) (w : World) :
  let stmt := λ table,
    match head with
    | Some h =>
        "DELETE FROM " +:+ database +:+ "." +:+ table
        +:+ " WHERE block_number > " +:+ pretty (ref_number h)
    | None =>
        "DELETE FROM " +:+ database +:+ "." +:+ table
        +:+ " WHERE block_number >= 0"
    end in
  let o := clearPartialData database tableList head w in
  (∃ k : nat,
     (k ≤ length tableList)%nat
     ∧ commands (trace o) = stmt <$> take k tableList
     ∧ length (trace o) = k
     ∧ (is_ok (res o) = true → k = length tableList))
  ∧ (∀ rows, Inspect.inspectDatabase database rows = Ok tableList →
     ("blocks" ∉ tableList) ∧ (stmt "blocks" ∉ commands (trace o))).
Proof.
  intros stmt o.
  assert (o = forTables stmt tableList w) as Ho by (by destruct head).
  destruct (forTables_trace stmt tableList w) as (k & Hk & Hcmd & Hlen & Hok).
  rewrite Ho. split.
  - exists k. auto.
  - intros rows Hno%inspectDatabase_no_blocks. split; [done|].
    rewrite Hcmd. intros (table & Heq & Hin%elem_of_take)%list_elem_of_fmap.
    destruct Hin as (i & Hin%list_elem_of_lookup_2 & _).
    assert (table = "blocks") as ->; [|done].
    symmetry. unfold stmt in Heq.
    destruct head; by apply delete_statement_inj in Heq.
Qed.

End Facts.

End LoopFacts.

(** ** The loop on concrete streams *)

Module LoopExamples.

Import Loop.

(** C3 (as stated, refuted).  After a batch that ends at block 5 under
    a head at 1000 (no flush), an empty batch with [headNumber] 1000
    makes the loop await [writer.flush()], although 1000 exceeds the
    number of the last processed block. *)
Lemma empty_batch_flushes_beyond_last_block :
  trace (forStream Demo.drain Demo.push Demo.flush Demo.mapNothing
           Demo.twoBatches (true, true))
  = [ EvMap Demo.block5 (Ok ∅); EvDrain (Ok tt);
      EvPush Demo.block5 ∅ (Ok tt);
      EvRegisterBatch Demo.behindHead 1;
      EvFlush (Ok tt);
      EvRegisterBatch Demo.emptyBehindHead 0 ]
  ∧ ¬ flushOnlyBehind (number Demo.block5) Demo.emptyBehindHead
        (trace (processBatch Demo.drain Demo.push Demo.flush Demo.mapNothing
                  Demo.emptyBehindHead (true, true))).
Proof.
  split; [reflexivity|].
  intros Hclaim. destruct Hclaim as [Hnone|(h & Hh & Hle)].
  - exists (Ok tt). left.
  - discriminate.
  - injection Hh as <-. simpl in Hle. lia.
Qed.

(** A source that fails at once, a healthy writer and a store that
    rejects inserts: one flush, its failure logged, the source's error
    thrown. *)
Lemma error_flushes_once_and_rethrows_witness :
  processingLoop Demo.drain Demo.push Demo.flush Demo.isHealthy
    Demo.mapNothing Demo.failingStream (true, false)
  = mkOutcome (Throw "portal unreachable") (true, false)
      [ EvFlush (Throw "insert rejected");
        EvLogError "insert rejected"
                   "final flush of already mapped data failed" ].
Proof.
  exact (LoopFacts.error_flushes_once_and_rethrows
           Demo.drain Demo.push Demo.flush Demo.isHealthy Demo.mapNothing
           Demo.failingStream (true, false) "portal unreachable" eq_refl).
Defined.

(** An unhealthy writer is not flushed. *)
Example unhealthy_writer_not_flushed :
  processingLoop Demo.drain Demo.push Demo.flush Demo.isHealthy
    Demo.mapNothing Demo.failingStream (false, true)
  = mkOutcome (Throw "portal unreachable") (false, true) [].
Proof. reflexivity. Qed.

(** Reconciliation of the database of [evm/db_tvl.sql] from block 100. *)
Example reconcile_tvl_from_head :
  Inspect.inspectDatabase "u3_tvl_src" Demo.tvlDatabase
  = Ok ["liquidity"; "price"]
  ∧ commands
      (trace (@clearPartialData BlockHeader string string Demo.World
                Demo.command "u3_tvl_src" ["liquidity"; "price"]
                (Some Demo.head100) (true, true)))
    = [ "DELETE FROM u3_tvl_src.liquidity WHERE block_number > 100";
        "DELETE FROM u3_tvl_src.price WHERE block_number > 100" ].
Proof. split; reflexivity. Qed.

Example reconcile_tvl_without_head :
  commands
    (trace (@clearPartialData BlockHeader string string Demo.World
              Demo.command "u3_tvl_src" ["liquidity"; "price"]
              None (true, true)))
  = [ "DELETE FROM u3_tvl_src.liquidity WHERE block_number >= 0";
      "DELETE FROM u3_tvl_src.price WHERE block_number >= 0" ].
Proof. reflexivity. Qed.

End LoopExamples.

(** ** Metrics *)

Module MetricsFacts.

Import Metrics.

Section Facts.

Context {B Speed Timer : Type} `{BlockBase B}.

Variable speedPush : Z → Z → Z → Speed → Speed.
Variable showSpeed : Speed → string.
Variable timerStart : Z → Timer → Timer.
Variable timerStop : Timer → Timer.

(** C9.  [registerBatch] on a batch without blocks returns at once:
    the metrics object is unchanged ([lastBlock], [lastTick], both
    speeds, the report time and the report timer) and nothing is
    logged. *)
Theorem registerBatch_empty (tick now dateNow : Z) (batch : DataBatch B)
    (rows : nat) (m : Metrics) :
  blocks batch = [] →
  registerBatch speedPush showSpeed timerStart timerStop
    tick now dateNow batch rows m = (m, []).
Proof. intros Hempty. unfold registerBatch. by rewrite Hempty. Qed.

End Facts.

(** An empty batch leaves a metrics object with a pending report
    untouched. *)
Lemma registerBatch_empty_witness :
  registerBatch Demo.speedPush Demo.showSpeed Demo.timerStart Demo.timerStop
    2000 6000 6001 Demo.emptyBehindHead 0 Demo.someMetrics
  = (Demo.someMetrics, []).
Proof.
  exact (registerBatch_empty Demo.speedPush Demo.showSpeed Demo.timerStart
           Demo.timerStop 2000 6000 6001 Demo.emptyBehindHead 0
           Demo.someMetrics eq_refl).
Defined.

(** A batch with a block does change the metrics: here the report is
    due, so a status line is logged and the timer stopped. *)
Example registerBatch_nonempty :
  registerBatch Demo.speedPush Demo.showSpeed Demo.timerStart Demo.timerStop
    2000 6000 6001 Demo.behindHead 1 Demo.someMetrics
  = (mkMetrics 5 2000 (Some 6001) [(0, 1000, 2000); (1, 0, 1000)]
       [(1, 1000, 2000); (3, 0, 1000)] None,
     ["last block: 5, rate: 2 blocks/sec, 2 rows/sec"]).
Proof. reflexivity. Qed.

End MetricsFacts.

(** ** The commit barrier of the block writer *)

Module BlockWriterFacts.

Import BlockWriter.

Section Facts.

Context {Row : Type}.

Implicit Types (w : @Writer Row) (row : BlockHeader).

Lemma minDurable_bound w (n : Z) :
  match minDurable w with None => True | Some m => n ≤ m end
  ↔ ∀ table buf, items w !! table = Some buf → n ≤ durable buf.
Proof.
  unfold minDurable.
  apply (map_fold_weak_ind
    (λ acc (m : gmap string TableBuffer),
       match acc with None => True | Some d => n ≤ d end
       ↔ ∀ table buf, m !! table = Some buf → n ≤ durable buf)).
  - split; [|done]. intros _ table buf. by rewrite lookup_empty.
  - intros table buf m acc Hfresh IH. split.
    + intros Hacc table' buf'. rewrite lookup_insert.
      case_decide as Heq.
      * intros [= <-]. destruct acc; lia.
      * apply IH. destruct acc; [lia|done].
    + intros Hall.
      assert (n ≤ durable buf) by (apply (Hall table); by rewrite lookup_insert_eq).
      assert (match acc with None => True | Some d => n ≤ d end) as Hacc.
      { apply IH. intros table' buf' Hl. apply (Hall table').
        rewrite lookup_insert_ne; [done|]. intros ->. congruence. }
      destruct acc; [lia|done].
Qed.

Lemma publishable_spec w row :
  publishable w row = true
  ↔ ∀ table buf, items w !! table = Some buf → number row ≤ durable buf.
Proof.
  rewrite <- minDurable_bound. unfold publishable.
  destruct (minDurable w); [apply Z.leb_le|done].
Qed.

(** C1.  A flush of the [blocks] buffer ships exactly the buffered rows
    whose number is at most the durable block of every item table, that
    is at most the minimum durable block; these rows, and no others,
    are added to the [blocks] table. *)
Theorem commit_barrier w row :
  (row ∈ fst (flushBlocks w)
   ↔ row ∈ blocksBuffer w
     ∧ ∀ table buf, items w !! table = Some buf → number row ≤ durable buf)
  ∧ (row ∈ fst (flushBlocks w) →
     ∀ m, minDurable w = Some m → number row ≤ m)
  ∧ blocksStored (snd (flushBlocks w))
    = blocksStored w ++ fst (flushBlocks w).
Proof.
  assert (row ∈ fst (flushBlocks w)
          ↔ row ∈ blocksBuffer w ∧ publishable w row = true) as Hship.
  { simpl. rewrite list_elem_of_In, filter_In, <- list_elem_of_In. done. }
  split; [|split].
  - by rewrite Hship, publishable_spec.
  - intros [_ Hpub]%Hship m Hm. unfold publishable in Hpub.
    rewrite Hm in Hpub. by apply Z.leb_le.
  - reflexivity.
Qed.

End Facts.

(** With tables durable up to 7 and 5, rows 4 and 5 are published and
    rows 6 and 7 stay buffered. *)
Example flushBlocks_someWriter :
  number <$> fst (flushBlocks Demo.someWriter) = [4; 5]
  ∧ number <$> blocksBuffer (snd (flushBlocks Demo.someWriter)) = [6; 7]
  ∧ minDurable Demo.someWriter = Some 5.
Proof. vm_compute. auto. Qed.

End BlockWriterFacts.

(** ** More on schema inspection *)

Module ListingFacts.

Import Inspect Contract Listing.

(** X1.  A table other than [blocks] passes the check if and only if it
    has a [block_number] column of type UInt32 or UInt64 and a
    [block_hash] column of type String or of a type whose name starts
    with FixedString, and its [block_timestamp] column, if any, is
    exactly DateTime. *)
Theorem item_table_validation db table fields :
  table ≠ "blocks" →
  checkTable db table fields = Ok tt ↔ itemSchema prefixHash fields.
Proof.
  intros Hne. unfold checkTable, itemSchema.
  destruct (String.eqb table "blocks") eqn:Heq.
  { by apply String.eqb_eq in Heq. }
  rewrite !InspectFacts.andThen_ok, !InspectFacts.assertColumn_required,
    !InspectFacts.assertColumn_optional.
  rewrite (InspectFacts.required_iff _ _ _ _ InspectFacts.BlockNumber_match).
  rewrite (InspectFacts.required_iff _ _ _ _ InspectFacts.Hash_match).
  rewrite (InspectFacts.optional_iff _ _ _ _ InspectFacts.DataTime_match).
  tauto.
Qed.

(** The [liquidity] table of [evm/db_tvl.sql]. *)
Lemma item_table_validation_witness :
  checkTable "u3_tvl_src" "liquidity"
    (tableColumns Demo.tvlDatabase "liquidity") = Ok tt
  ↔ itemSchema prefixHash (tableColumns Demo.tvlDatabase "liquidity").
Proof.
  apply (item_table_validation "u3_tvl_src" "liquidity"
           (tableColumns Demo.tvlDatabase "liquidity")).
  discriminate.
Defined.

(** *** The grouped listing *)

Lemma keys_group_insert_eq k r m :
  keys (group_insert k r m)
  = if decide (k ∈ keys m) then keys m else keys m ++ [k].
Proof.
  unfold keys. induction m as [|[k0 g] m IH]; cbn [group_insert map fst].
  - rewrite decide_False; [done|apply not_elem_of_nil].
  - destruct (String.eqb k0 k) eqn:Heq; cbn [map fst].
    + apply String.eqb_eq in Heq as ->.
      rewrite decide_True; [done|left].
    + apply String.eqb_neq in Heq. rewrite IH.
      destruct (decide (k ∈ map fst m)) as [Hin|Hin].
      * rewrite decide_True; [done|by right].
      * rewrite decide_False; [done|].
        intros [?|?]%elem_of_cons; congruence.
Qed.

Lemma group_insert_entry k r m k' g' :
  NoDup (keys m) →
  (k', g') ∈ group_insert k r m →
  (k' = k ∧ ((∃ g, (k, g) ∈ m ∧ g' = g ++ [r]) ∨ ((k ∉ keys m) ∧ g' = [r])))
  ∨ (k' ≠ k ∧ (k', g') ∈ m).
Proof.
  unfold keys. induction m as [|[k0 g] m IH]; simpl; intros Hnd Hin.
  - apply list_elem_of_singleton in Hin as [= -> ->].
    left. split; [done|]. right. split; [apply not_elem_of_nil|done].
  - apply NoDup_cons in Hnd as [Hk0 Hnd].
    destruct (String.eqb k0 k) eqn:Heq.
    + apply String.eqb_eq in Heq as ->.
      apply elem_of_cons in Hin as [[= -> ->]|Hin].
      * left. split; [done|]. left. exists g. split; [left|done].
      * right. split; [|by right]. intros ->. apply Hk0.
        apply list_elem_of_fmap. by exists (k, g').
    + apply String.eqb_neq in Heq.
      apply elem_of_cons in Hin as [[= -> ->]|Hin].
      * right. split; [done|left].
      * destruct (IH Hnd Hin) as [[-> [(g1 & Hg1 & ->)|[Hnk ->]]]|[Hne Hin']].
        -- left. split; [done|]. left. exists g1. split; [by right|done].
        -- left. split; [done|]. right. split; [|done].
           intros [?|?]%elem_of_cons; congruence.
        -- right. split; [done|by right].
Qed.

Lemma groupBy_snoc rows r :
  groupBy (rows ++ [r]) col_table
  = group_insert (col_table r) r (groupBy rows col_table).
Proof. unfold groupBy. by rewrite fold_left_app. Qed.

Lemma tableColumns_snoc rows r table :
  tableColumns (rows ++ [r]) table
  = tableColumns rows table
    ++ (if String.eqb (col_table r) table then [r] else []).
Proof. unfold tableColumns. by rewrite List.filter_app. Qed.

Lemma tableColumns_nonempty rows table :
  tableColumns rows table ≠ [] ↔ ∃ r, r ∈ rows ∧ col_table r = table.
Proof.
  unfold tableColumns. split.
  - intros Hne. destruct (List.filter _ rows) as [|r l] eqn:Hf; [done|].
    assert (In r (List.filter (λ r, String.eqb (col_table r) table) rows))
      as Hin by (rewrite Hf; left; done).
    apply filter_In in Hin as [Hin Heq]. exists r.
    split; [by apply list_elem_of_In|by apply String.eqb_eq].
  - intros (r & Hin & Heq) Hnil.
    assert (In r (List.filter (λ r, String.eqb (col_table r) table) rows))
      as Hin'.
    { apply filter_In. split; [by apply list_elem_of_In|by apply String.eqb_eq]. }
    by rewrite Hnil in Hin'.
Qed.

(** The grouped listing has one entry per table of the listing, holding
    that table's rows in order. *)
Lemma groupBy_spec rows :
  NoDup (keys (groupBy rows col_table))
  ∧ (∀ table fields,
       (table, fields) ∈ groupBy rows col_table →
       fields = tableColumns rows table ∧ fields ≠ [])
  ∧ (∀ r, r ∈ rows → col_table r ∈ keys (groupBy rows col_table)).
Proof.
  induction rows as [|r rows (Hnd & Hent & Hkeys)] using rev_ind.
  - split; [constructor|]. split.
    + intros table fields Hin. by apply elem_of_nil in Hin.
    + intros r Hin. by apply elem_of_nil in Hin.
  - rewrite groupBy_snoc. split; [|split].
    + rewrite keys_group_insert_eq. case_decide as Hin; [done|].
      apply NoDup_app. split; [done|]. split; [|apply NoDup_singleton].
      intros k Hk ->%list_elem_of_singleton. done.
    + intros table fields Hin. rewrite tableColumns_snoc.
      destruct (group_insert_entry _ _ _ _ _ Hnd Hin)
        as [[-> [(g & Hg & ->)|[Hnk ->]]]|[Hne Hin']].
      * rewrite String.eqb_refl. destruct (Hent _ _ Hg) as [<- _].
        split; [done|]. by destruct g.
      * rewrite String.eqb_refl. split; [|done].
        destruct (tableColumns rows (col_table r)) as [|r0 l] eqn:Hcols; [done|].
        exfalso. apply Hnk.
        assert (tableColumns rows (col_table r) ≠ []) as Hne by (by rewrite Hcols).
        apply tableColumns_nonempty in Hne as (r1 & Hr1 & <-). by apply Hkeys.
      * destruct (Hent _ _ Hin') as [-> Hnonempty].
        assert (String.eqb (col_table r) table = false) as ->.
        { apply String.eqb_neq. congruence. }
        by rewrite app_nil_r.
    + intros r' Hin. rewrite keys_group_insert_eq.
      apply elem_of_app in Hin as [Hin| ->%list_elem_of_singleton].
      * case_decide; [by apply Hkeys|]. apply elem_of_app. left. by apply Hkeys.
      * case_decide; [done|]. apply elem_of_app. right. left.
Qed.

Lemma checkTables_ok db entries :
  checkTables db entries = Ok tt
  ↔ ∀ table fields, (table, fields) ∈ entries →
      checkTable db table fields = Ok tt.
Proof.
  induction entries as [|[t f] entries IH]; simpl.
  - split; [|done]. intros _ table fields Hin. by apply elem_of_nil in Hin.
  - rewrite InspectFacts.andThen_ok, IH. split.
    + intros [Hhead Hrest] table fields [[= -> ->]|Hin]%elem_of_cons; auto.
    + intros Hall. split; [apply Hall; left|].
      intros table fields Hin. apply Hall. by right.
Qed.

Lemma groupBy_entry rows r :
  r ∈ rows →
  (col_table r, tableColumns rows (col_table r)) ∈ groupBy rows col_table.
Proof.
  intros Hin. destruct (groupBy_spec rows) as (_ & Hent & Hkeys).
  specialize (Hkeys r Hin). unfold keys in Hkeys.
  apply list_elem_of_fmap in Hkeys as ([k g] & Hk & Hg). simpl in Hk. subst k.
  by destruct (Hent _ _ Hg) as [<- _].
Qed.

(** [inspectDatabase] succeeds if and only if the listing has a table
    named [blocks] and every listed table passes the check on its own
    rows of the listing, taken in the listing's order. *)
Theorem inspect_succeeds_iff db rows :
  is_ok (inspectDatabase db rows) = true
  ↔ (∃ r, r ∈ rows ∧ col_table r = "blocks")
    ∧ ∀ r, r ∈ rows →
        checkTable db (col_table r) (tableColumns rows (col_table r)) = Ok tt.
Proof.
  destruct (groupBy_spec rows) as (Hnd & Hent & Hkeys).
  unfold inspectDatabase. cbn zeta.
  assert (has (groupBy rows col_table) "blocks" = true
          ↔ ∃ r, r ∈ rows ∧ col_table r = "blocks") as Hhas.
  { rewrite InspectFacts.has_keys. split.
    - apply InspectFacts.keys_groupBy.
    - intros (r & Hin & <-). by apply Hkeys. }
  assert (checkTables db (groupBy rows col_table) = Ok tt
          ↔ ∀ r, r ∈ rows →
              checkTable db (col_table r) (tableColumns rows (col_table r))
              = Ok tt) as Hchecks.
  { rewrite checkTables_ok. split.
    - intros Hall r Hin. apply Hall. by apply groupBy_entry.
    - intros Hall table fields Hin.
      destruct (Hent _ _ Hin) as [-> Hne].
      apply tableColumns_nonempty in Hne as (r & Hr & <-). by apply Hall. }
  destruct (checkTables db (groupBy rows col_table)) as [[]|e].
  - destruct (has (groupBy rows col_table) "blocks"); simpl.
    + split; [|done]. intros _. split; [by apply Hhas|by apply Hchecks].
    + split; [done|]. intros [Hb _]. apply Hhas in Hb. discriminate.
  - simpl. split; [done|]. intros [_ Hall]. apply Hchecks in Hall. discriminate.
Qed.

(** X3.  The list [inspectDatabase] returns holds each listed table
    other than [blocks] exactly once, and nothing else. *)
Theorem inspect_returns_item_tables db rows tableList :
  inspectDatabase db rows = Ok tableList →
  NoDup tableList
  ∧ ∀ table, table ∈ tableList
      ↔ table ≠ "blocks" ∧ ∃ r, r ∈ rows ∧ col_table r = table.
Proof.
  destruct (groupBy_spec rows) as (Hnd & Hent & Hkeys).
  unfold inspectDatabase. cbn zeta.
  destruct (checkTables _ _); [|discriminate].
  destruct (negb _); [discriminate|]. intros [= <-]. split.
  - by apply NoDup_filter.
  - intros table. rewrite list_elem_of_filter. split.
    + intros [Hne Hin]. split; [done|]. by apply InspectFacts.keys_groupBy.
    + intros [Hne (r & Hin & <-)]. split; [done|by apply Hkeys].
Qed.

Lemma inspect_returns_item_tables_witness :
  NoDup ["liquidity"; "price"]
  ∧ ∀ table, table ∈ ["liquidity"; "price"]
      ↔ table ≠ "blocks"
        ∧ ∃ r, r ∈ Demo.tvlDatabase ∧ col_table r = table.
Proof.
  exact (inspect_returns_item_tables "u3_tvl_src" Demo.tvlDatabase
           ["liquidity"; "price"] eq_refl).
Defined.

Lemma assertColumn_throw db table fields name type optional e :
  assertColumn db table fields name type optional = Throw e →
  (columnType fields name = None ∧ e = missingColumn db table name)
  ∨ ∃ found, columnType fields name = Some found
             ∧ type_match type found = false
             ∧ e = unsupportedType db table name found (description type).
Proof.
  unfold assertColumn, columnType.
  destruct (find _ fields) as [def|]; simpl.
  - destruct (type_match type (col_type def)) eqn:Hm; [discriminate|].
    intros [= <-]. right. by exists (col_type def).
  - destruct optional; [discriminate|]. intros [= <-]. by left.
Qed.

Lemma andThen_throw (r k : result string unit) e :
  andThen r k = Throw e → r = Throw e ∨ k = Throw e.
Proof. destruct r as [[]|e0]; simpl; auto. Qed.

Lemma checkTable_throw db table fields e :
  checkTable db table fields = Throw e →
  ∃ name type optional,
    assertColumn db table fields name type optional = Throw e.
Proof.
  unfold checkTable. destruct (String.eqb table "blocks"); intros Hthrow;
    repeat (apply andThen_throw in Hthrow as [Hthrow|Hthrow]; [eauto|]);
    eauto.
Qed.

Lemma checkTables_throw db entries e :
  checkTables db entries = Throw e →
  ∃ table fields, (table, fields) ∈ entries
                  ∧ checkTable db table fields = Throw e.
Proof.
  induction entries as [|[t f] entries IH]; simpl; [discriminate|].
  intros [Hhead|Hrest]%andThen_throw.
  - exists t, f. split; [left|done].
  - destruct (IH Hrest) as (t' & f' & Hin & Hthrow).
    exists t', f'. split; [by right|done].
Qed.

End ListingFacts.

(** ** The errors of the inspection *)

Module SchemaFacts.

Import Inspect Contract Listing Expected.

Lemma andThen_throw_iff (r k : result string unit) e :
  andThen r k = Throw e ↔ r = Throw e ∨ (r = Ok tt ∧ k = Throw e).
Proof.
  destruct r as [[]|e0]; simpl; split.
  - intros Hk. right. by split.
  - intros [?|[_ ?]]; [discriminate|done].
  - intros Heq. by left.
  - intros [?|[? _]]; [done|discriminate].
Qed.

Section Column.

Variables (db table : string) (fields : list ColumnRow).
Variables (a : string * TypeDef * bool) (c : ContractColumn).
Hypothesis Hchecks : checks a c.

Lemma assertColumn_columnOk :
  assertColumn db table fields (fst (fst a)) (snd (fst a)) (snd a) = Ok tt
  ↔ columnOk fields c.
Proof.
  destruct Hchecks as (Hname & Hopt & _ & Hmatch).
  unfold assertColumn, columnOk, columnType. rewrite Hname, Hopt.
  destruct (find _ fields) as [def|]; simpl.
  - rewrite <- Hmatch.
    destruct (type_match (snd (fst a)) (col_type def)); split; done.
  - destruct (coptional c); split; done.
Qed.

Lemma assertColumn_columnFails e :
  assertColumn db table fields (fst (fst a)) (snd (fst a)) (snd a) = Throw e
  ↔ columnFails db table fields c e.
Proof.
  destruct Hchecks as (Hname & Hopt & Hdescr & Hmatch).
  unfold assertColumn, columnFails, columnType, missingColumn,
    unsupportedType.
  rewrite Hname, Hopt, Hdescr.
  destruct (find _ fields) as [def|]; simpl.
  - destruct (type_match (snd (fst a)) (col_type def)) eqn:Hm; split.
    + discriminate.
    + intros [[? _]|(found & [= <-] & Hno & _)]; [discriminate|].
      exfalso. apply Hno. by apply Hmatch.
    + intros [= <-]. right. exists (col_type def). split; [done|].
      split; [|done]. rewrite <- Hmatch. congruence.
    + intros [[? _]|(found & [= <-] & _ & ->)]; [discriminate|done].
  - destruct (coptional c); split.
    + discriminate.
    + intros [(_ & ? & _)|(found & ? & _)]; discriminate.
    + intros [= <-]. by left.
    + intros [(_ & _ & ->)|(found & ? & _)]; [done|discriminate].
Qed.

End Column.

Lemma assertAll_spec db table fields asserts cs :
  Forall2 checks asserts cs →
  (assertAll db table fields asserts = Ok tt ↔ Forall (columnOk fields) cs)
  ∧ ∀ e, assertAll db table fields asserts = Throw e
         ↔ ∃ pre c post,
             cs = pre ++ c :: post
             ∧ Forall (columnOk fields) pre
             ∧ columnFails db table fields c e.
Proof.
  induction 1 as [|[[name type] optional] c asserts cs Hc Hrest [IHok IHfail]].
  - split; [by split|]. intros e. split; [discriminate|].
    intros (pre & c & post & Heq & _). by destruct pre.
  - pose proof (assertColumn_columnOk db table fields _ _ Hc) as Hok.
    pose proof (assertColumn_columnFails db table fields _ _ Hc) as Hfail.
    cbn [fst snd] in Hok, Hfail. cbn [assertAll]. split.
    + rewrite InspectFacts.andThen_ok, Hok, IHok, Forall_cons. done.
    + intros e. rewrite andThen_throw_iff, Hok, Hfail, IHfail. split.
      * intros [Hhead|[Hhead (pre & c' & post & -> & Hpre & Hc')]].
        -- exists [], c, cs. by repeat split.
        -- exists (c :: pre), c', post. repeat split; [by constructor|done].
      * intros (pre & c' & post & Heq & Hpre & Hc').
        destruct pre as [|c0 pre]; simplify_eq/=.
        -- by left.
        -- apply Forall_cons in Hpre as [Hc0 Hpre]. right. split; [done|].
           by exists pre, c', post.
Qed.

Lemma checkTable_assertAll db table fields :
  checkTable db table fields
  = assertAll db table fields (assertions table).
Proof.
  unfold checkTable, assertions.
  destruct (String.eqb table "blocks"); cbn [assertAll];
    repeat f_equal;
    by destruct (assertColumn db table fields _ DataTime true) as [[]|].
Qed.

Lemma assertions_check table :
  Forall2 checks (assertions table) (contractColumns table).
Proof.
  unfold assertions, contractColumns, blocksColumns, itemColumns.
  destruct (String.eqb table "blocks");
    repeat (constructor;
            [first [ by repeat split; try apply InspectFacts.BlockNumber_match
                   | by repeat split; try apply InspectFacts.Hash_match
                   | by repeat split; try apply InspectFacts.DataTime_match ]|]);
    constructor.
Qed.

(** The per-table check agrees with the contract, in success and in
    the error it throws. *)
Lemma checkTable_tableOk db table fields :
  checkTable db table fields = Ok tt ↔ tableOk table fields.
Proof.
  rewrite checkTable_assertAll.
  apply (assertAll_spec db table fields _ _ (assertions_check table)).
Qed.

Lemma checkTable_tableError db table fields e :
  checkTable db table fields = Throw e ↔ tableError db table fields e.
Proof.
  rewrite checkTable_assertAll.
  apply (assertAll_spec db table fields _ _ (assertions_check table)).
Qed.







(** The signed [block_number] of table [x] is its column error. *)
Example signed_block_number_error :
  tablesInOrder Demo.signedItemOnly = ["x"]
  ∧ tableError "db" "x" (tableColumns Demo.signedItemOnly "x")
      ("column 'block_number' of table 'db.x' has unsupported type "
       +:+ "Int64, only UInt32 and UInt64 types are allowed").
Proof.
  split; [reflexivity|].
  eexists [], _, _.
  split; [reflexivity|]. split; [constructor|]. right. exists "Int64".
  split; [reflexivity|]. split; [|reflexivity].
  intros [?|?]; discriminate.
Qed.

(** X2.  [inspectDatabase] succeeds if and only if the listing has a
    table named [blocks] and every listed table meets the contract of
    its columns on its own rows of the listing, taken in the listing's
    order: each required column present with an allowed type, each
    optional column absent or of an allowed type. *)
Theorem inspect_succeeds_on_contract db rows :
  is_ok (inspectDatabase db rows) = true
  ↔ (∃ r, r ∈ rows ∧ col_table r = "blocks")
    ∧ ∀ r, r ∈ rows →
        tableOk (col_table r) (tableColumns rows (col_table r)).
Proof.
  rewrite ListingFacts.inspect_succeeds_iff.
  split; intros [Hblocks Hall]; (split; [done|]); intros r Hr;
    by apply (checkTable_tableOk db), Hall.
Qed.

(** X15.  When [inspectDatabase] fails, its error is either the
    missing-[blocks] message, and then the listing has no table named
    [blocks], or the error of a column of the contract of a listed
    table: a required column which that table lacks, or a column it has
    with exactly the reported type, which the contract does not allow
    for that column. *)
Theorem inspect_error_names_offender db rows e :
  inspectDatabase db rows = Throw e →
  (e = blocksNotDefined db ∧ ∀ r, r ∈ rows → col_table r ≠ "blocks")
  ∨ ∃ r c,
      r ∈ rows
      ∧ c ∈ contractColumns (col_table r)
      ∧ columnFails db (col_table r) (tableColumns rows (col_table r)) c e.
Proof.
  destruct (ListingFacts.groupBy_spec rows) as (Hnd & Hent & Hkeys).
  unfold inspectDatabase. cbn zeta.
  destruct (checkTables db (groupBy rows col_table)) as [[]|e0] eqn:Hchecks.
  - destruct (has (groupBy rows col_table) "blocks") eqn:Hhas; [discriminate|].
    simpl. intros [= <-]. left. split; [done|].
    intros r Hin Hblocks.
    assert (has (groupBy rows col_table) "blocks" = true) as Htrue.
    { apply InspectFacts.has_keys. rewrite <- Hblocks. by apply Hkeys. }
    congruence.
  - intros [= <-]. right.
    apply ListingFacts.checkTables_throw in Hchecks
      as (table & fields & Hin & Hthrow).
    destruct (Hent _ _ Hin) as [-> Hne].
    apply ListingFacts.tableColumns_nonempty in Hne as (r & Hr & <-).
    apply checkTable_tableError in Hthrow as (pre & c & post & Heq & _ & Hc).
    exists r, c. split; [done|]. split; [|done].
    rewrite Heq. apply elem_of_app. right. left.
Qed.

(** The database whose table [x] has no [block_hash]. *)
Lemma inspect_error_names_offender_witness :
  (missingColumn "db" "x" "block_hash" = blocksNotDefined "db"
   ∧ ∀ r, r ∈ Demo.noBlockHash → col_table r ≠ "blocks")
  ∨ ∃ r c,
      r ∈ Demo.noBlockHash
      ∧ c ∈ contractColumns (col_table r)
      ∧ columnFails "db" (col_table r)
          (tableColumns Demo.noBlockHash (col_table r)) c
          (missingColumn "db" "x" "block_hash").
Proof.
  exact (inspect_error_names_offender "db" Demo.noBlockHash
           (missingColumn "db" "x" "block_hash") eq_refl).
Defined.

End SchemaFacts.

(** ** More on the processing loop *)

Module RunFacts.

Import Loop Events.

Section Facts.

Context {B Row Err World : Type} `{BlockBase B}.

Variable command : string → World → result Err unit * World.
Variable queryColumns :
  string → World → result Err (list Inspect.ColumnRow) * World.
Variable queryHead : string → World → result Err (list BlockRef) * World.
Variable drain : World → result Err unit * World.
Variable push : BlockHeader → gmap string (list Row) → World
                → result Err unit * World.
Variable flush : World → result Err unit * World.
Variable isHealthy : World → bool.
Variable map : B → result Err (gmap string (list Row)).
Variable newError : string → Err.
Context {Options : Type}.
Variable noOptions : Options.
Variable newBlockWriter : string → list (string * Options) → World → World.

Local Abbreviation forBlocks := (Loop.forBlocks drain push map).
Local Abbreviation processBatch := (Loop.processBatch drain push flush map).
Local Abbreviation forStream := (Loop.forStream drain push flush map).
Local Abbreviation processingLoop :=
  (Loop.processingLoop drain push flush isHealthy map).
Local Abbreviation clearPartialData :=
  (@Loop.clearPartialData B Row Err World command).
Local Abbreviation forTables := (@Loop.forTables B Row Err World command).
Local Abbreviation event := (@Loop.event B Row Err).
Local Abbreviation run :=
  (Loop.runClickhouseProcessing command queryColumns queryHead drain push
     flush isHealthy map newError noOptions newBlockWriter).

(** Closes the goals [Forall P tr] for a listed trace [tr] whose events
    all satisfy [P] by computation. *)
Local Ltac listed_events :=
  repeat first [ apply Forall_nil_2 | apply Forall_cons_2; [reflexivity|] ].

Lemma forBlocks_events (bs : list B) (n : nat) (w : World) :
  Forall (λ ev : event, isBlockEvent ev = true) (trace (forBlocks bs n w)).
Proof.
  revert n w. induction bs as [|b bs IH]; intros n w.
  - simpl. constructor.
  - rewrite LoopFacts.forBlocks_cons.
    destruct (map b) as [t|e]; [|cbn [trace]; listed_events].
    destruct (drain w) as [[[]|e] w1]; [|cbn [trace]; listed_events].
    destruct (push (header b) t w1) as [[[]|e] w2]; [|cbn [trace]; listed_events].
    cbn [trace]. apply Forall_app. split; [|apply IH].
    unfold blockSteps. listed_events.
Qed.

Lemma blockEvent_streamEvent (ev : event) :
  isBlockEvent ev = true → isStreamEvent ev = true.
Proof. by destruct ev. Qed.

Lemma processBatch_events (batch : DataBatch B) (w : World) :
  Forall (λ ev : event, isStreamEvent ev = true) (trace (processBatch batch w)).
Proof.
  rewrite LoopFacts.processBatch_unfold. cbn zeta.
  pose proof (forBlocks_events (blocks batch) 0 w) as Hbs.
  pose proof (Forall_impl _ _ _ Hbs blockEvent_streamEvent) as Hstream.
  destruct (res (forBlocks (blocks batch) 0%nat w)); [|done].
  destruct (headSignal batch).
  - destruct (flush _) as [[[]|e] w']; cbn [trace];
      apply Forall_app; (split; [done|listed_events]).
  - cbn [trace]. apply Forall_app. split; [done|listed_events].
Qed.

Lemma forStream_events (s : DataStream B Err) (w : World) :
  Forall (λ ev : event, isStreamEvent ev = true) (trace (forStream s w)).
Proof.
  revert w. induction s as [|e|batch rest IH]; intros w; simpl; try constructor.
  unfold bind. cbn zeta. pose proof (processBatch_events batch w) as Hb.
  destruct (res (processBatch batch w)) as [[]|e]; cbn [trace]; [|done].
  apply Forall_app. split; [done|apply IH].
Qed.

(** X4.  For a batch with blocks, the flush at the head is awaited if
    and only if every block of the batch was mapped and pushed and
    [headNumber], taken as -1 when unset, is at most the number of the
    batch's last block. *)
Theorem nonempty_batch_flush_iff (bs : list B) (b : B) (hn : option Z)
    (w : World) :
  (∃ r, EvFlush r ∈ trace (processBatch (mkBatch (bs ++ [b]) hn) w))
  ↔ is_ok (res (forBlocks (bs ++ [b]) 0%nat w)) = true
    ∧ default (-1) hn ≤ number (header b).
Proof.
  rewrite LoopFacts.processBatch_unfold. cbn zeta. cbn [blocks].
  pose proof (forBlocks_events (bs ++ [b]) 0 w) as Hbs.
  assert (∀ r, EvFlush r ∉ trace (forBlocks (bs ++ [b]) 0%nat w)) as Hnone.
  { intros r Hin. rewrite Forall_forall in Hbs. by apply Hbs in Hin. }
  pose proof (LoopFacts.headSignal_nonempty bs b hn) as Hsig.
  destruct (res (forBlocks (bs ++ [b]) 0%nat w)) as [n|e]; cbn [trace is_ok].
  - destruct (headSignal (mkBatch (bs ++ [b]) hn)).
    + split.
      * intros _. split; [done|]. by apply Hsig.
      * intros _. destruct (flush _) as [[[]|e] w']; cbn [trace];
          eexists; apply elem_of_app; right; left.
    + cbn [trace]. split.
      * intros [r [Hin|Hin]%elem_of_app]; [by apply Hnone in Hin|].
        apply list_elem_of_singleton in Hin. discriminate.
      * intros [_ Hle]. apply Hsig in Hle. discriminate.
  - split; [|by intros [? _]]. intros [r Hin]. by apply Hnone in Hin.
Qed.

(** X5.  When the loop over the stream completes, the run awaits one
    more [writer.flush()]; if it succeeds the metrics are reported and
    the run completes, and if it fails its error is thrown as it is,
    with no report and no second attempt. *)
Theorem stream_end_flushes_and_reports (s : DataStream B Err) (w : World) :
  res (forStream s w) = Ok tt →
  processingLoop s w =
  let o := forStream s w in
  match flush (world o) with
  | (Ok _, w') =>
      mkOutcome (Ok tt) w' (trace o ++ [EvFlush (Ok tt); EvReport])
  | (Throw e, w') => mkOutcome (Throw e) w' (trace o ++ [EvFlush (Throw e)])
  end.
Proof.
  intros Hs. unfold Loop.processingLoop, bind, tryCatch, call, emit.
  cbn zeta. rewrite Hs. cbn [res world trace].
  destruct (flush (world (forStream s w))) as [[[]|e] w'];
    cbn [res world trace]; rewrite Hs; cbn [res world trace]; done.
Qed.

(** *** The whole program *)

Lemma run_unfold (db : string) (tables : option (gmap string Options))
    (createDataStream : option BlockRef → DataStream B Err) (w : World) :
  run db tables createDataStream w =
  match queryColumns db w with
  | (Throw e, w1) => mkOutcome (Throw e) w1 [EvQueryColumns db (Throw e)]
  | (Ok rows, w1) =>
      match Inspect.inspectDatabase db rows with
      | Throw message =>
          mkOutcome (Throw (newError message)) w1
            [EvQueryColumns db (Ok rows)]
      | Ok tableList =>
          match queryHead (headQuery db) w1 with
          | (Throw e, w2) =>
              mkOutcome (Throw e) w2
                [EvQueryColumns db (Ok rows);
                 EvQueryHead (headQuery db) (Throw e)]
          | (Ok data, w2) =>
              let oc := clearPartialData db tableList (last data) w2 in
              match res oc with
              | Throw e =>
                  mkOutcome (Throw e) (world oc)
                    (EvQueryColumns db (Ok rows)
                     :: EvQueryHead (headQuery db) (Ok data) :: trace oc)
              | Ok _ =>
                  let tableMap :=
                    (λ table,
                       (table, default noOptions (tables ≫= (.!! table))))
                      <$> tableList in
                  let ol :=
                    processingLoop (createDataStream (last data))
                      (newBlockWriter db tableMap (world oc)) in
                  mkOutcome (res ol) (world ol)
                    (EvQueryColumns db (Ok rows)
                     :: EvQueryHead (headQuery db) (Ok data)
                     :: trace oc ++ trace ol)
              end
          end
      end
  end.
Proof.
  unfold Loop.runClickhouseProcessing, Loop.inspectDatabase, headQuery.
  unfold bind, call, throw, ret. cbn zeta.
  destruct (queryColumns db w) as [[rows|e] w1]; cbn [res world trace]; [|done].
  destruct (Inspect.inspectDatabase db rows) as [tableList|message];
    cbn [res world trace]; [|done].
  destruct (queryHead _ w1) as [[data|e] w2]; cbn [res world trace]; [|done].
  destruct (res (clearPartialData db tableList (last data) w2)) as [[]|e];
    cbn [res world trace]; [|done].
  done.
Qed.

Lemma forTables_startup (stmt : string → string) (tableList : list string)
    (w : World) :
  Forall (λ ev : event, isStartupEvent ev = true)
    (trace (forTables stmt tableList w))
  ∧ (is_ok (res (forTables stmt tableList w)) = true →
     trace (forTables stmt tableList w)
     = (λ table, EvCommand (stmt table) (Ok tt)) <$> tableList).
Proof.
  revert w. induction tableList as [|table rest IH]; intros w.
  - simpl. split; [constructor|done].
  - simpl. unfold bind, call. cbn zeta.
    destruct (command (stmt table) w) as [[[]|e] w1]; cbn [res world trace].
    + destruct (IH w1) as [Hall Hok]. split.
      * by constructor.
      * intros Hres. simpl. by rewrite (Hok Hres).
    + split; [listed_events|discriminate].
Qed.

Lemma processingLoop_events (s : DataStream B Err) (w : World) :
  Forall (λ ev : event, isStartupEvent ev = false)
    (trace (processingLoop s w)).
Proof.
  pose proof (forStream_events s w) as Hev.
  assert (Forall (λ ev : event, isStartupEvent ev = false)
            (trace (forStream s w))) as Hev'.
  { eapply Forall_impl; [exact Hev|]. intros ev. by destruct ev. }
  destruct (res (forStream s w)) as [[]|e] eqn:Hs.
  - rewrite (stream_end_flushes_and_reports _ _ Hs). cbn zeta.
    destruct (flush _) as [[[]|e] w']; cbn [trace];
      apply Forall_app; (split; [done|listed_events]).
  - rewrite (LoopFacts.error_flushes_once_rethrows_eq _ _ _ _ _ _ _ _ Hs).
    cbn zeta. destruct (isHealthy _); [|done].
    destruct (flush _) as [[[]|e'] w']; cbn [trace];
      apply Forall_app; (split; [done|listed_events]).
Qed.

(** X7.  The trace of a run splits into a startup part, made of the two
    queries and the reconciliation statements only, and a processing
    part that holds none of these.  Whenever the processing part is not
    empty, the startup part is complete: the columns query, the head
    query, and one successful [DELETE] per table returned by the
    inspection, for the head the query returned.  So no block is mapped
    or pushed before reconciliation has finished, and nothing is deleted
    afterwards. *)
Theorem run_reconciles_first (db : string)
    (tables : option (gmap string Options))
    (createDataStream : option BlockRef → DataStream B Err) (w : World) :
  ∃ startup processing : list event,
    trace (run db tables createDataStream w) = startup ++ processing
    ∧ Forall (λ ev, isStartupEvent ev = true) startup
    ∧ Forall (λ ev, isStartupEvent ev = false) processing
    ∧ (processing ≠ [] →
       ∃ rows data tableList,
         Inspect.inspectDatabase db rows = Ok tableList
         ∧ startup
           = EvQueryColumns db (Ok rows)
             :: EvQueryHead (headQuery db) (Ok data)
             :: ((λ table,
                    EvCommand (reconcileStatement db (last data) table)
                              (Ok tt))
                   <$> tableList)).
Proof.
  rewrite run_unfold.
  destruct (queryColumns db w) as [[rows|e] w1].
  2:{ eexists _, []. rewrite app_nil_r. cbn [trace].
      split; [done|]. split; [listed_events|]. split; [constructor|done]. }
  destruct (Inspect.inspectDatabase db rows) as [tableList|message] eqn:Hins.
  2:{ eexists _, []. rewrite app_nil_r. cbn [trace].
      split; [done|]. split; [listed_events|]. split; [constructor|done]. }
  destruct (queryHead (headQuery db) w1) as [[data|e] w2].
  2:{ eexists _, []. rewrite app_nil_r. cbn [trace].
      split; [done|]. split; [listed_events|]. split; [constructor|done]. }
  cbn zeta.
  assert (clearPartialData db tableList (last data) w2
          = forTables (reconcileStatement db (last data)) tableList w2) as ->.
  { unfold Loop.clearPartialData, reconcileStatement. by destruct (last data). }
  destruct (forTables_startup (reconcileStatement db (last data)) tableList w2)
    as [Hall Hok].
  destruct (res (forTables _ tableList w2)) as [[]|e].
  - eexists (_ :: _ :: trace (forTables _ tableList w2)), _. cbn [trace].
    split; [reflexivity|]. split; [by repeat constructor|].
    split; [apply processingLoop_events|].
    intros _. exists rows, data, tableList. split; [done|].
    by rewrite (Hok eq_refl).
  - eexists _, []. rewrite app_nil_r. cbn [trace].
    split; [done|]. split; [by repeat constructor|]. split; [constructor|done].
Qed.

(** X8.  When the columns query succeeds and the listing fails the
    inspection, the run throws an [Error] with the inspector's message
    right after that query: the head is not queried, nothing is deleted,
    no writer is created and no data is fetched. *)
Theorem schema_error_ends_run (db message : string)
    (tables : option (gmap string Options))
    (createDataStream : option BlockRef → DataStream B Err)
    (rows : list Inspect.ColumnRow) (w w1 : World) :
  queryColumns db w = (Ok rows, w1) →
  Inspect.inspectDatabase db rows = Throw message →
  run db tables createDataStream w
  = mkOutcome (Throw (newError message)) w1 [EvQueryColumns db (Ok rows)].
Proof. apply LoopFacts.schema_error_stops_run. Qed.

End Facts.

End RunFacts.

(** ** Runs on concrete stores *)

Module RunExamples.

Import Loop.

(** Two batches, a healthy writer and a store that accepts inserts. *)
Lemma stream_end_flushes_and_reports_witness :
  processingLoop Demo.drain Demo.push Demo.flush Demo.isHealthy
    Demo.mapNothing Demo.twoBatches (true, true)
  = mkOutcome (Ok tt) (true, true)
      [ EvMap Demo.block5 (Ok ∅); EvDrain (Ok tt);
        EvPush Demo.block5 ∅ (Ok tt);
        EvRegisterBatch Demo.behindHead 1;
        EvFlush (Ok tt);
        EvRegisterBatch Demo.emptyBehindHead 0;
        EvFlush (Ok tt); EvReport ].
Proof.
  exact (RunFacts.stream_end_flushes_and_reports
           Demo.drain Demo.push Demo.flush Demo.isHealthy Demo.mapNothing
           Demo.twoBatches (true, true) eq_refl).
Defined.

(** A database whose only table has a signed [block_number]. *)
Lemma schema_error_ends_run_witness :
  runClickhouseProcessing Demo.command DemoRun.queryColumns
    DemoRun.queryHead Demo.drain Demo.push Demo.flush Demo.isHealthy
    Demo.mapNothing DemoRun.newError tt DemoRun.newBlockWriter
    "db" None DemoRun.createDataStream (true, true)
  = mkOutcome
      (Throw ("column 'block_number' of table 'db.x' has unsupported type "
              +:+ "Int64, only UInt32 and UInt64 types are allowed"))
      (true, true)
      [EvQueryColumns "db" (Ok Demo.signedItemOnly)].
Proof.
  exact (RunFacts.schema_error_ends_run
           Demo.command DemoRun.queryColumns DemoRun.queryHead
           Demo.drain Demo.push Demo.flush Demo.isHealthy
           Demo.mapNothing DemoRun.newError tt DemoRun.newBlockWriter
           "db"
           ("column 'block_number' of table 'db.x' has unsupported type "
            +:+ "Int64, only UInt32 and UInt64 types are allowed")
           None DemoRun.createDataStream Demo.signedItemOnly
           (true, true) (true, true) eq_refl eq_refl).
Defined.

End RunExamples.

(** ** More on the metrics *)

Module MetricsMore.

Import Metrics.

Section Facts.

Context {B Speed Timer : Type} `{BlockBase B}.

Variable speedPush : Z → Z → Z → Speed → Speed.
Variable showSpeed : Speed → string.
Variable timerStart : Z → Timer → Timer.
Variable timerStop : Timer → Timer.

Local Abbreviation registerBatch :=
  (Metrics.registerBatch speedPush showSpeed timerStart timerStop).
Local Abbreviation reportUpdates :=
  (Metrics.reportUpdates showSpeed timerStart timerStop).
Local Abbreviation report := (Metrics.report showSpeed timerStop).

Lemma reportUpdates_keeps (now dateNow : Z) (m : @Metrics Speed Timer) :
  lastBlock (fst (reportUpdates now dateNow m)) = lastBlock m
  ∧ lastTick (fst (reportUpdates now dateNow m)) = lastTick m
  ∧ blockSpeed (fst (reportUpdates now dateNow m)) = blockSpeed m
  ∧ insertSpeed (fst (reportUpdates now dateNow m)) = insertSpeed m.
Proof.
  unfold Metrics.reportUpdates, Metrics.report.
  destruct (lastReportTime m) as [t|]; [|done].
  cbn zeta. by destruct (0 <? 5000 - (now - t)).
Qed.

(** X9.  Registering a batch with blocks moves [lastBlock] to the number
    of the batch's last block and [lastTick] to the new tick, pushes the
    row count to the insert speed, and pushes to the block speed the
    distance from the previous [lastBlock] (from the block before the
    batch's first one when no block was registered yet), never a
    negative number; both pushes span the old and the new tick. *)
Theorem registerBatch_advances (tick now dateNow : Z) (batch : DataBatch B)
    (first : B) (rest : list B) (rows : nat) (m : Metrics) :
  blocks batch = first :: rest →
  let m' := fst (registerBatch tick now dateNow batch rows m) in
  let lastNumber := number (header (default first (last (blocks batch)))) in
  let previous :=
    if lastBlock m <? 0 then number (header first) - 1 else lastBlock m in
  lastBlock m' = lastNumber
  ∧ lastTick m' = tick
  ∧ insertSpeed m'
    = speedPush (Z.of_nat rows) (lastTick m) tick (insertSpeed m)
  ∧ blockSpeed m'
    = speedPush (Z.max 0 (lastNumber - previous)) (lastTick m) tick
        (blockSpeed m)
  ∧ 0 ≤ Z.max 0 (lastNumber - previous).
Proof.
  intros Hblocks. unfold Metrics.registerBatch. rewrite Hblocks.
  cbn zeta. rewrite <- Hblocks.
  match goal with
  | |- context [Metrics.reportUpdates _ _ _ now dateNow ?m1] =>
      destruct (reportUpdates_keeps now dateNow m1) as (-> & -> & -> & ->)
  end.
  cbn [lastBlock lastTick blockSpeed insertSpeed].
  repeat split; lia.
Qed.

(** X10.  Registering a batch with blocks logs at most one status line,
    and logs one if and only if no report was made yet or the last one
    is at least 5000 ms old; then the report time becomes the current
    time and the timer is stopped.  Otherwise the report time is kept
    and the timer is started with the time left, a positive delay. *)
Theorem registerBatch_report_rate (tick now dateNow : Z)
    (batch : DataBatch B) (first : B) (rest : list B) (rows : nat)
    (m : Metrics) :
  blocks batch = first :: rest →
  let out := registerBatch tick now dateNow batch rows m in
  let due :=
    match lastReportTime m with
    | None => True
    | Some t => 5000 ≤ now - t
    end in
  (length (snd out) ≤ 1)%nat
  ∧ (snd out ≠ [] ↔ due)
  ∧ (due →
     lastReportTime (fst out) = Some dateNow
     ∧ reportTimeout (fst out) = timerStop (reportTimeout m))
  ∧ (¬ due →
     ∃ t, lastReportTime m = Some t
          ∧ lastReportTime (fst out) = Some t
          ∧ 0 < 5000 - (now - t)
          ∧ reportTimeout (fst out)
            = timerStart (5000 - (now - t)) (reportTimeout m)).
Proof.
  intros Hblocks. unfold Metrics.registerBatch. rewrite Hblocks.
  cbn zeta. unfold Metrics.reportUpdates, Metrics.report.
  cbn [lastReportTime reportTimeout].
  destruct (lastReportTime m) as [t|].
  - cbn zeta. destruct (0 <? 5000 - (now - t)) eqn:Hdelay.
    + apply Z.ltb_lt in Hdelay. cbn [fst snd length].
      split; [lia|]. split; [split; [done|lia]|]. split; [lia|].
      intros _. exists t. cbn [lastReportTime reportTimeout]. auto.
    + apply Z.ltb_ge in Hdelay. cbn [fst snd length].
      split; [lia|]. split; [split; [lia|done]|]. split; [|lia].
      intros _. cbn [lastReportTime reportTimeout]. auto.
  - cbn [fst snd length]. split; [lia|]. split; [done|]. split; [|tauto].
    intros _. cbn [lastReportTime reportTimeout]. auto.
Qed.

(** X11.  After a report made at time [d], an update before [d + 5000]
    logs nothing: it only restarts the stopped timer with the time left
    until [d + 5000]. *)
Theorem no_second_report_within_5s (d now dateNow : Z) (m : Metrics) :
  now - d < 5000 →
  reportUpdates now dateNow (fst (report d m))
  = ({| lastBlock := lastBlock m;
        lastTick := lastTick m;
        lastReportTime := Some d;
        blockSpeed := blockSpeed m;
        insertSpeed := insertSpeed m;
        reportTimeout :=
          timerStart (5000 - (now - d)) (timerStop (reportTimeout m)) |},
     []).
Proof.
  intros Hsoon. unfold Metrics.reportUpdates, Metrics.report.
  cbn [fst lastReportTime]. cbn zeta.
  assert ((0 <? 5000 - (now - d)) = true) as -> by (apply Z.ltb_lt; lia).
  reflexivity.
Qed.

End Facts.

Lemma registerBatch_advances_witness :
  let m' :=
    fst (Metrics.registerBatch Demo.speedPush Demo.showSpeed
           Demo.timerStart Demo.timerStop 2000 6000 6001
           Demo.behindHead 1 Demo.someMetrics) in
  lastBlock m' = 5
  ∧ lastTick m' = 2000
  ∧ insertSpeed m' = [(1, 1000, 2000); (3, 0, 1000)]
  ∧ blockSpeed m' = [(0, 1000, 2000); (1, 0, 1000)]
  ∧ 0 ≤ 0.
Proof.
  exact (registerBatch_advances Demo.speedPush Demo.showSpeed
           Demo.timerStart Demo.timerStop 2000 6000 6001 Demo.behindHead
           Demo.block5 [] 1 Demo.someMetrics eq_refl).
Defined.

Lemma registerBatch_report_rate_witness :
  let out :=
    Metrics.registerBatch Demo.speedPush Demo.showSpeed Demo.timerStart
      Demo.timerStop 2000 3000 3001 Demo.behindHead 1 Demo.someMetrics in
  let due := 5000 ≤ 3000 - 40 in
  (length (snd out) ≤ 1)%nat
  ∧ (snd out ≠ [] ↔ due)
  ∧ (due →
     lastReportTime (fst out) = Some 3001
     ∧ reportTimeout (fst out) = None)
  ∧ (¬ due →
     ∃ t, Some 40 = Some t
          ∧ lastReportTime (fst out) = Some t
          ∧ 0 < 5000 - (3000 - t)
          ∧ reportTimeout (fst out) = Some (5000 - (3000 - t))).
Proof.
  exact (registerBatch_report_rate Demo.speedPush Demo.showSpeed
           Demo.timerStart Demo.timerStop 2000 3000 3001 Demo.behindHead
           Demo.block5 [] 1 Demo.someMetrics eq_refl).
Defined.

Lemma no_second_report_within_5s_witness :
  Metrics.reportUpdates Demo.showSpeed Demo.timerStart Demo.timerStop
    7000 7001
    (fst (Metrics.report Demo.showSpeed Demo.timerStop 6001
            Demo.someMetrics))
  = (mkMetrics 5 1000 (Some 6001) [(1, 0, 1000)] [(3, 0, 1000)] (Some 4001),
     []).
Proof.
  exact (no_second_report_within_5s Demo.showSpeed Demo.timerStart
           Demo.timerStop 6001 7000 7001 Demo.someMetrics
           ltac:(vm_compute; reflexivity)).
Defined.

End MetricsMore.

(** ** The ERC-20 mapping function *)

Module Erc20Facts.

Import Erc20.

Section Facts.

Context {Log : Type}.
Variable logIndex : Log → Z.
Variable transactionHash : Log → string.
Variable address : Log → string.
Variable isTransfer : Log → bool.
Variable decode : Log → Transfer.

Local Abbreviation pushUpdates :=
  (Erc20.pushUpdates logIndex transactionHash address isTransfer decode).
Local Abbreviation forLogs :=
  (Erc20.forLogs logIndex transactionHash address isTransfer decode).
Local Abbreviation map :=
  (Erc20.map logIndex transactionHash address isTransfer decode).
Local Abbreviation transfers := (Erc20.transfers isTransfer decode).
Local Abbreviation deltas := (Erc20.deltas isTransfer decode).

Lemma pushUpdates_app (log : Log) (acc : list BalanceUpdate) :
  pushUpdates log acc = acc ++ pushUpdates log [].
Proof.
  unfold Erc20.pushUpdates. destruct (isTransfer log); [|by rewrite app_nil_r].
  cbn zeta. by destruct (String.eqb _ _).
Qed.

Lemma forLogs_cons (log : Log) (logs : list Log) :
  forLogs (log :: logs) [] = pushUpdates log [] ++ forLogs logs [].
Proof.
  unfold Erc20.forLogs. simpl.
  generalize (pushUpdates log []). clear log.
  induction logs as [|l logs IH]; intros acc; simpl.
  - by rewrite app_nil_r.
  - rewrite IH, (IH (pushUpdates l [])), pushUpdates_app. by rewrite app_assoc.
Qed.

Lemma sumZ_app (xs ys : list Z) : sumZ (xs ++ ys) = sumZ xs + sumZ ys.
Proof. unfold sumZ. induction xs as [|x xs IH]; simpl; lia. Qed.

Lemma amountsOf_app (a : string) (rows1 rows2 : list BalanceUpdate)
    (zs1 zs2 : list Z) :
  length rows1 = length zs1 →
  amountsOf a (rows1 ++ rows2) (zs1 ++ zs2)
  = amountsOf a rows1 zs1 ++ amountsOf a rows2 zs2.
Proof.
  intros Hlen. unfold amountsOf.
  by rewrite zip_with_app, List.filter_app, fmap_app.
Qed.

Lemma transfers_cons (log : Log) (logs : list Log) :
  transfers (log :: logs)
  = (if isTransfer log then [decode log] else []) ++ transfers logs.
Proof. unfold Erc20.transfers. simpl. by destruct (isTransfer log). Qed.

(** The rows of one log and the numbers they carry. *)
Lemma log_rows (log : Log) (a : string) :
  Forall2 (λ row z, amount row = pretty z) (pushUpdates log []) (deltas log)
  ∧ sumZ (deltas log) = 0
  ∧ sumZ (amountsOf a (pushUpdates log []) (deltas log))
    = netChange a (if isTransfer log then [decode log] else [])
  ∧ length (pushUpdates log [])
    = sum_list_with rowsPerTransfer
        (if isTransfer log then [decode log] else []).
Proof.
  unfold Erc20.pushUpdates, Erc20.deltas, netChange.
  destruct (isTransfer log); [|by repeat split; try constructor].
  cbn zeta. destruct (decode log) as [f t v]. cbn [from to value].
  assert (length (if String.eqb f t then [0] else [- v; v])
          = sum_list_with rowsPerTransfer [mkTransfer f t v]) as Hcount.
  { simpl. unfold rowsPerTransfer. cbn [from to].
    by destruct (String.eqb f t). }
  destruct (String.eqb f t) eqn:Hself.
  - apply String.eqb_eq in Hself as ->.
    split; [by repeat constructor|]. split; [done|]. split; [|exact Hcount].
    unfold amountsOf, sumZ. simpl. cbn [from to value].
    destruct (String.eqb t a); simpl; lia.
  - split; [by repeat constructor|]. split; [unfold sumZ; simpl; lia|].
    split; [|exact Hcount].
    unfold amountsOf, sumZ. simpl. cbn [from to value].
    destruct (String.eqb f a), (String.eqb t a); simpl; lia.
Qed.

Lemma netChange_app (a : string) (ts1 ts2 : list Transfer) :
  netChange a (ts1 ++ ts2) = netChange a ts1 + netChange a ts2.
Proof. unfold netChange. by rewrite fmap_app, sumZ_app. Qed.

Lemma rows_of_logs (logs : list Log) :
  ∃ zs : list Z,
    Forall2 (λ row z, amount row = pretty z) (forLogs logs []) zs
    ∧ sumZ zs = 0
    ∧ (∀ a, sumZ (amountsOf a (forLogs logs []) zs)
            = netChange a (transfers logs))
    ∧ length (forLogs logs [])
      = sum_list_with rowsPerTransfer (transfers logs).
Proof.
  induction logs as [|log logs (zs & Hrows & Hsum & Hnet & Hlen)].
  - exists []. repeat split; auto.
  - exists (deltas log ++ zs). rewrite forLogs_cons, transfers_cons.
    destruct (log_rows log "") as (Hrows1 & Hsum1 & _ & Hlen1).
    split; [by apply Forall2_app|]. split; [rewrite sumZ_app; lia|]. split.
    + intros a. destruct (log_rows log a) as (_ & _ & Hnet1 & _).
      rewrite amountsOf_app by (by eapply Forall2_length).
      by rewrite sumZ_app, netChange_app, Hnet1, Hnet.
    + by rewrite length_app, sum_list_with_app, Hlen1, Hlen.
Qed.

(** X12.  The rows the mapping emits carry, as decimal numbers, exactly
    the balance changes of the block's transfers: for every account the
    amounts of its rows add up to what the account receives minus what
    it sends. *)
Theorem balance_updates_net_change (logs : option (list Log)) (a : string) :
  ∃ zs : list Z,
    Forall2 (λ row z, amount row = pretty z) (balance_updates (map logs)) zs
    ∧ sumZ (amountsOf a (balance_updates (map logs)) zs)
      = netChange a (transfers (default [] logs)).
Proof.
  destruct (rows_of_logs (default [] logs)) as (zs & Hrows & _ & Hnet & _).
  exists zs. split; [done|apply Hnet].
Qed.

(** X13.  The amounts of the rows emitted for a block add up to zero:
    the mapping creates and destroys no tokens. *)
Theorem balance_updates_sum_zero (logs : option (list Log)) :
  ∃ zs : list Z,
    Forall2 (λ row z, amount row = pretty z) (balance_updates (map logs)) zs
    ∧ sumZ zs = 0.
Proof.
  destruct (rows_of_logs (default [] logs)) as (zs & Hrows & Hsum & _).
  by exists zs.
Qed.

Lemma rowsPerTransfer_bounds (ts : list Transfer) :
  (length ts ≤ sum_list_with rowsPerTransfer ts ≤ 2 * length ts)%nat.
Proof.
  induction ts as [|t ts IH]; simpl; [lia|].
  unfold rowsPerTransfer at 1 3. destruct (String.eqb _ _); lia.
Qed.

(** X14.  The mapping emits one row for each transfer from an account
    to itself and two for each other transfer, and none for the other
    logs; so between one and two rows per transfer, and no row for a
    block without logs. *)
Theorem balance_updates_count (logs : option (list Log)) :
  let ts := transfers (default [] logs) in
  length (balance_updates (map logs)) = sum_list_with rowsPerTransfer ts
  ∧ (length ts ≤ length (balance_updates (map logs)) ≤ 2 * length ts)%nat
  ∧ (logs = None → balance_updates (map logs) = []).
Proof.
  cbn zeta.
  destruct (rows_of_logs (default [] logs)) as (zs & _ & _ & _ & Hlen).
  split; [exact Hlen|]. split.
  - unfold Erc20.map. cbn [balance_updates]. rewrite Hlen.
    apply rowsPerTransfer_bounds.
  - by intros ->.
Qed.

End Facts.

(** Three transfers: 70 from [0xaa] to [0xbb], 5 from [0xbb] to itself,
    30 from [0xbb] to [0xcc]. *)
Example balance_updates_demo :
  balance_updates
    (Erc20.map fst (λ _, "0xtx") (λ _, "0xusdc") (λ _, true) snd
       (Some [ (0, mkTransfer "0xaa" "0xbb" 70);
               (1, mkTransfer "0xbb" "0xbb" 5);
               (2, mkTransfer "0xbb" "0xcc" 30) ]))
  = [ mkUpdate 0 "0xtx" "0xusdc" "0xaa" "0xbb" "-70";
      mkUpdate 0 "0xtx" "0xusdc" "0xbb" "0xaa" "70";
      mkUpdate 1 "0xtx" "0xusdc" "0xbb" "0xbb" "0";
      mkUpdate 2 "0xtx" "0xusdc" "0xbb" "0xcc" "-30";
      mkUpdate 2 "0xtx" "0xusdc" "0xcc" "0xbb" "30" ].
Proof. reflexivity. Qed.

End Erc20Facts.
